(** * fcatalog_client: the IDA client of the function catalog

    A shallow embedding of [fcatalog_client/ida_client.py] and the
    properties of its candidate selection, naming codec, batch exchange
    and session life cycle.

    The script is written for IDAPython on Python 2 ([idc.GetManyBytes],
    [idc.MakeName], implicit relative imports), so its strings are byte
    strings: [string] below is a sequence of 8-bit characters.  What the
    script prints is left out. *)

From Stdlib Require Import ZArith String Ascii List Bool Lia.
From stdpp Require Import base gmap list strings.

Local Open Scope Z_scope.

(** ** Python built-ins used by the script *)

Module Py.

Definition LF : ascii := Ascii.ascii_of_nat 10.
Definition CR : ascii := Ascii.ascii_of_nat 13.

(** The string "\n". *)
Definition NL : string := String LF "".

(** [s.startswith(p)] *)
Definition startswith (s p : string) : bool := String.prefix p s.

(** [sub in s] *)
Fixpoint contains (sub s : string) : bool :=
  String.prefix sub s ||
  match s with
  | EmptyString => false
  | String _ s' => contains sub s'
  end.

(** [c.lower()] on one byte: only [A-Z] change. *)
Definition lower_ascii (c : ascii) : ascii :=
  let n := Ascii.nat_of_ascii c in
  if (65 <=? n)%nat && (n <=? 90)%nat
  then Ascii.ascii_of_nat (n + 32) else c.

(** [s.lower()] *)
Fixpoint lower (s : string) : string :=
  match s with
  | EmptyString => EmptyString
  | String c s' => String (lower_ascii c) (lower s')
  end.

(** The line boundaries of a byte string: "\n", "\r" and "\r\n". *)
Definition is_linebreak (c : ascii) : bool :=
  Ascii.eqb c LF || Ascii.eqb c CR.

(** [s.splitlines()]: [cur] is the line being read.  A line break ends
    the current line ("\r\n" counts as one break); the end of the string
    ends it only when it is not empty. *)
Fixpoint splitlines_from (cur s : string) : list string :=
  match s with
  | EmptyString =>
      match cur with EmptyString => [] | _ => [cur] end
  | String c s' =>
      if Ascii.eqb c CR then
        match s' with
        | String c' s'' =>
            if Ascii.eqb c' LF then cur :: splitlines_from "" s''
            else cur :: splitlines_from "" s'
        | EmptyString => cur :: splitlines_from "" s'
        end
      else if Ascii.eqb c LF then cur :: splitlines_from "" s'
      else splitlines_from (cur +:+ String c "") s'
  end.

Definition splitlines (s : string) : list string := splitlines_from "" s.

(** [sep.join(l)] *)
Definition join (sep : string) (l : list string) : string :=
  String.concat sep l.

Definition digit_char (d : Z) : ascii :=
  Ascii.ascii_of_nat (Z.to_nat (if d <? 10 then 48 + d else 55 + d)).

(** The digits of a non-negative [n] in [base], most significant first,
    in front of [acc]; at least one digit.  [fuel] bounds the number of
    digits. *)
Fixpoint digits_from (fuel : nat) (base n : Z) (acc : string) : string :=
  let acc' := String (digit_char (n mod base)) acc in
  match fuel with
  | O => acc'
  | S fuel' =>
      if n / base =? 0 then acc' else digits_from fuel' base (n / base) acc'
  end.

Definition digits (base n : Z) : string :=
  digits_from (Z.to_nat (Z.log2 n)) base n "".

(** The text of an integer in [base], as [format] writes it with the
    presentation types [d] (the default) and [X]. *)
Definition format_int (base n : Z) : string :=
  if n <? 0 then String "-" (digits base (- n)) else digits base n.

Fixpoint repeat_char (c : ascii) (n : nat) : string :=
  match n with
  | O => EmptyString
  | S n' => String c (repeat_char c n')
  end.

(** The format specification [{:0>w}]: fill with "0" on the left up to
    width [w]; longer texts are left as they are. *)
Definition rjust0 (w : nat) (s : string) : string :=
  repeat_char "0" (w - String.length s) +:+ s.

End Py.

(** ** Constants of the client *)

Definition MIN_FUNC_LENGTH : Z := 0x60.
Definition FCATALOG_FUNC_NAME_PREFIX : string := "FCATALOG__".
Definition FCATALOG_COMMENT_PREFIX : string := "%%%".
Definition MAX_SIM_GRADE : Z := 16.
Definition NUM_SIMILARS : Z := 1.
Definition GET_SIMILARS_BATCH_SIZE : nat := 20.

(** ** Errors and results *)

(** [FCatalogClientError] is the one exception class the script declares.
    Modelled from the spec: the errors of the catalog session, whose module
    [db_endpoint] is not part of the sources; the spec names them
    [ConnectionError], [ProtocolError] and [DatabaseError]. *)
Inductive exn : Type :=
| FCatalogClientError (msg : string)
| ConnectionError
| ProtocolError
| DatabaseError.

Inductive result (A : Type) : Type :=
| Ok (a : A)
| Raise (e : exn).
Arguments Ok {A} a.
Arguments Raise {A} e.

Definition is_ok {A} (r : result A) : bool :=
  match r with Ok _ => true | Raise _ => false end.

(** ** The host: the IDA database *)

(** What the script reads from and writes to IDA.  [names] is what
    [idc.GetFunctionName] reads and [idc.MakeName] writes; [cmts] is the
    comment of each function as IDA keeps it. *)
Record idb : Type := {
  Functions : list Z;             (* idautils.Functions() *)
  func_end : Z -> Z;              (* idc.GetFunctionAttr(a, FUNCATTR_END) *)
  tails : Z -> list (Z * Z);      (* func_tail_iterator_t(get_func(a)) *)
  bytes_at : Z -> Z -> option (list Byte.byte);    (* idc.GetManyBytes *)
  names : gmap Z string;
  cmts : gmap Z string
}.

Definition GetFunctionName (db : idb) (func_addr : Z) : string :=
  default "" (names db !! func_addr).

(** The script does not look at what [idc.MakeName] returns; the host is
    taken to accept every name. *)
Definition MakeName (func_addr : Z) (name : string) (db : idb) : idb :=
  {| Functions := Functions db; func_end := func_end db; tails := tails db;
     bytes_at := bytes_at db;
     names := <[func_addr := name]> (names db);
     cmts := cmts db |}.

(** ** Reading a function *)

(** The loop of [is_func_chunked] counts the chunks the iterator walks
    through. *)
Definition is_func_chunked (db : idb) (func_addr : Z) : bool :=
  let num_chunks := fold_left (fun n _ => n + 1) (tails db func_addr) 0 in
  1 <? num_chunks.

Definition get_func_length (db : idb) (func_addr : Z) : result Z :=
  if is_func_chunked db func_addr then
    Raise (FCatalogClientError
             ("Function " +:+ Py.format_int 16 func_addr +:+
              " is chunked. Can not calculate length."))
  else
    let func_end := func_end db func_addr in
    if func_end <? func_addr then
      Raise (FCatalogClientError
               ("Function " +:+ Py.format_int 16 func_addr +:+
                " has end lower than start"))
    else Ok (func_end - func_addr).

Definition get_func_data (db : idb) (func_addr : Z) : result (list Byte.byte) :=
  match get_func_length db func_addr with
  | Raise e => Raise e
  | Ok func_length =>
      match bytes_at db func_addr func_length with
      | None =>
          Raise (FCatalogClientError
                   ("Failed reading function " +:+ Py.format_int 16 func_addr +:+
                    " data"))
      | Some func_data => Ok func_data
      end
  end.

(** Both comment accessors are marked "Currently not implemented". *)
Definition get_func_comment (db : idb) (func_addr : Z) : string := "".

Definition set_func_comment (func_addr : Z) (comment : string) (db : idb)
  : idb := db.

(** ** Candidate selection *)

Definition is_func_fcatalog (db : idb) (func_addr : Z) : bool :=
  let func_name := GetFunctionName db func_addr in
  Py.startswith func_name FCATALOG_FUNC_NAME_PREFIX.

Definition is_func_named (db : idb) (func_addr : Z) : bool :=
  let func_name := GetFunctionName db func_addr in
  if Py.startswith func_name "sub_" then false
  else if Py.contains "_maybe" (Py.lower func_name)
          || Py.contains "maybe_" (Py.lower func_name) then false
  else if Py.contains "_related" (Py.lower func_name)
          || Py.contains "related_" (Py.lower func_name) then false
  else if is_func_fcatalog db func_addr then false
  else true.

Definition is_func_long_enough (db : idb) (func_addr : Z) : result bool :=
  match get_func_length db func_addr with
  | Raise e => Raise e
  | Ok func_length =>
      if func_length <? MIN_FUNC_LENGTH then Ok false else Ok true
  end.

Definition is_func_commit_candidate (db : idb) (func_addr : Z) : result bool :=
  if is_func_chunked db func_addr then Ok false
  else if negb (is_func_named db func_addr) then Ok false
  else match is_func_long_enough db func_addr with
       | Raise e => Raise e
       | Ok long_enough => if negb long_enough then Ok false else Ok true
       end.

Definition is_func_find_candidate (db : idb) (func_addr : Z) : result bool :=
  if is_func_chunked db func_addr then Ok false
  else if is_func_named db func_addr then Ok false
  else match is_func_long_enough db func_addr with
       | Raise e => Raise e
       | Ok long_enough => if negb long_enough then Ok false else Ok true
       end.

(** ** Naming codec *)

Definition strip_comment_fcatalog (comment : string) : string :=
  let lines := Py.splitlines comment in
  let res_lines :=
    List.filter (fun ln => negb (Py.startswith ln FCATALOG_COMMENT_PREFIX))
                lines in
  Py.join Py.NL res_lines.

Definition add_comment_fcatalog (comment fcatalog_comment : string) : string :=
  let res_lines :=
    map (fun ln => FCATALOG_COMMENT_PREFIX +:+ " " +:+ ln)
        (Py.splitlines fcatalog_comment)
    ++ Py.splitlines comment in
  Py.join Py.NL res_lines.

Definition make_fcatalog_name (func_name : string) (sim_grade func_addr : Z)
  : string :=
  let lres :=
    [ FCATALOG_FUNC_NAME_PREFIX;
      Py.rjust0 2 (Py.format_int 10 sim_grade) +:+ "__";
      func_name;
      "__" +:+ Py.rjust0 8 (Py.format_int 16 (Z.land func_addr 0xffffffff)) ] in
  Py.join "" lres.

(** ** The catalog session *)

(** A match returned by the catalog. *)
Record similar : Type := {
  name : string;
  sim_grade : Z;
  comment : string
}.

(** What happens on the connection, in order. *)
Inductive event : Type :=
| EvConnect (remote : string)
| EvChooseDb (db_name : string)
| EvAddFunction (func_name func_comment : string) (func_data : list Byte.byte)
| EvRequestSimilars (func_data : list Byte.byte) (num_similars : Z)
| EvResponseSimilars (similars : list similar)
| EvClose.

(** The other side of the connection, told by position: whether the
    [k]-th event on the connection, when it is a frame to send, fails, and
    what it carries when it is a response to read. *)
Record remote : Type := {
  fails : nat -> option exn;
  answers : nat -> result (list similar)
}.

Record world : Type := {
  ida : idb;
  net : remote;
  wire : list event
}.

Definition with_ida (w : world) (db : idb) : world :=
  {| ida := db; net := net w; wire := wire w |}.

Definition with_wire (w : world) (tr : list event) : world :=
  {| ida := ida w; net := net w; wire := tr |}.

Definition M (A : Type) : Type := world -> world * result A.

#[global] Instance M_ret : MRet M := fun A a w => (w, Ok a).
#[global] Instance M_bind : MBind M := fun A B f m w =>
  match m w with
  | (w', Ok a) => f a w'
  | (w', Raise e) => (w', Raise e)
  end.

(** A computation on the IDA database alone. *)
Definition reads {A} (f : idb -> result A) : M A :=
  fun w => (w, f (ida w)).

Definition writes (f : idb -> idb) : M unit :=
  fun w => (with_ida w (f (ida w)), Ok tt).

Definition emit (ev : event) : M unit :=
  fun w => (with_wire w (wire w ++ [ev]), Ok tt).

Definition send (ev : event) : M unit :=
  fun w =>
    match fails (net w) (length (wire w)) with
    | Some e => (w, Raise e)
    | None => emit ev w
    end.

(** [for x in l: body(x)] *)
Fixpoint for_ {A} (l : list A) (body : A -> M unit) : M unit :=
  match l with
  | [] => mret tt
  | x :: l' => body x ;; for_ l' body
  end.

(** [for x in l: lres.append(body(x))] *)
Fixpoint collect {A B} (l : list A) (body : A -> M B) : M (list B) :=
  match l with
  | [] => mret []
  | x :: l' => y ← body x; ys ← collect l' body; mret (y :: ys)
  end.

(** Modelled from the spec: [TCPFrameClient] and [DBEndpoint] of the module
    [db_endpoint], which is not part of the sources.  Opening establishes
    the transport and selects the database; [add_function] and
    [request_similars] only send; [response_similars] reads the next
    response; [close] releases the transport. *)
Inductive TCPFrameClient_t : Type := FrameClient (remote : string).
Inductive DBEndpoint_t : Type :=
  Endpoint (frame_endpoint : TCPFrameClient_t) (db_name : string).

Definition TCPFrameClient (remote : string) : M TCPFrameClient_t :=
  send (EvConnect remote) ;; mret (FrameClient remote).

Definition DBEndpoint (frame_endpoint : TCPFrameClient_t) (db_name : string)
  : M DBEndpoint_t :=
  send (EvChooseDb db_name) ;; mret (Endpoint frame_endpoint db_name).

Definition add_function (fdb : DBEndpoint_t) (func_name func_comment : string)
    (func_data : list Byte.byte) : M unit :=
  send (EvAddFunction func_name func_comment func_data).

Definition request_similars (fdb : DBEndpoint_t) (func_data : list Byte.byte)
    (num_similars : Z) : M unit :=
  send (EvRequestSimilars func_data num_similars).

Definition response_similars (fdb : DBEndpoint_t) : M (list similar) :=
  fun w =>
    match answers (net w) (length (wire w)) with
    | Raise e => (w, Raise e)
    | Ok similars =>
        (with_wire w (wire w ++ [EvResponseSimilars similars]), Ok similars)
    end.

Definition close (fdb : DBEndpoint_t) : M unit := emit EvClose.

(** ** Generators *)

(** A generator yields its next item and the generator for the rest, stops,
    or raises; it runs in the world as it is when it is asked. *)
#[warnings="-register-all"]
Inductive gen (A : Type) : Type :=
| Gen (next : M (option (A * gen A))).
Arguments Gen {A} next.

Definition next {A} (g : gen A) : M (option (A * gen A)) :=
  match g with Gen nx => nx end.

Definition exhausted {A} : gen A := Gen (mret None).

(** [for x in g: body(x)] *)
Fixpoint for_each {A} (g : gen A) (body : A -> M unit) {struct g} : M unit :=
  match g with
  | Gen nx => fun w =>
      match nx w with
      | (w1, Raise e) => (w1, Raise e)
      | (w1, Ok None) => (w1, Ok tt)
      | (w1, Ok (Some (x, g'))) =>
          match body x w1 with
          | (w2, Raise e) => (w2, Raise e)
          | (w2, Ok _) => for_each g' body w2
          end
      end
  end.

Fixpoint find_candidates_from (funcs : list Z) : gen Z :=
  Gen (fun w =>
    match funcs with
    | [] => (w, Ok None)
    | func_addr :: funcs' =>
        match is_func_find_candidate (ida w) func_addr with
        | Raise e => (w, Raise e)
        | Ok true => (w, Ok (Some (func_addr, find_candidates_from funcs')))
        | Ok false => next (find_candidates_from funcs') w
        end
    end).

Definition iter_func_find_candidates : gen Z :=
  Gen (fun w => next (find_candidates_from (Functions (ida w))) w).

(** Modelled from the spec: [blockify] of the module [utils], which is not
    part of the sources.  It turns a lazy producer into blocks of a fixed
    size, the last one possibly shorter; [cur] is the block being filled. *)
Fixpoint blockify_from {A} (g : gen A) (n : nat) (cur : list A) {struct g}
  : gen (list A) :=
  match g with
  | Gen nx =>
      Gen (fun w =>
        match nx w with
        | (w1, Raise e) => (w1, Raise e)
        | (w1, Ok None) =>
            match cur with
            | [] => (w1, Ok None)
            | _ => (w1, Ok (Some (cur, exhausted)))
            end
        | (w1, Ok (Some (x, g'))) =>
            let cur' := cur ++ [x] in
            if (length cur' =? n)%nat
            then (w1, Ok (Some (cur', blockify_from g' n [])))
            else next (blockify_from g' n cur') w1
        end)
  end.

Definition blockify {A} (g : gen A) (n : nat) : gen (list A) :=
  blockify_from g n [].

(** ** The client *)

Record FCatalogClient : Type := {
  _remote : string;
  _db_name : string
}.

(** The body of the loop of [commit_funcs]. *)
Definition commit_func (fdb : DBEndpoint_t) (func_addr : Z) : M unit :=
  candidate ← reads (fun db => is_func_commit_candidate db func_addr);
  if negb candidate then mret tt
  else
    func_name ← reads (fun db => Ok (GetFunctionName db func_addr));
    func_comment ←
      reads (fun db =>
               Ok (strip_comment_fcatalog (get_func_comment db func_addr)));
    func_data ← reads (fun db => get_func_data db func_addr);
    add_function fdb func_name func_comment func_data.

(** [for func_addr in idautils.Functions(): body(func_addr)] *)
Definition for_Functions (body : Z -> M unit) : M unit :=
  fun w => for_ (Functions (ida w)) body w.

Definition commit_funcs (self : FCatalogClient) : M unit :=
  frame_endpoint ← TCPFrameClient (_remote self);
  fdb ← DBEndpoint frame_endpoint (_db_name self);
  for_Functions (commit_func fdb) ;;
  close fdb.

(** The first loop of [_batch_similars]. *)
Definition send_requests (fdb : DBEndpoint_t) (l_func_addr : list Z) : M unit :=
  for_ l_func_addr (fun func_addr =>
    func_data ← reads (fun db => get_func_data db func_addr);
    request_similars fdb func_data 1).

(** The second loop of [_batch_similars]. *)
Definition read_responses (fdb : DBEndpoint_t) (l_func_addr : list Z)
  : M (list (Z * list similar)) :=
  collect l_func_addr (fun func_addr =>
    similars ← response_similars fdb;
    mret (func_addr, similars)).

Definition _batch_similars (fdb : DBEndpoint_t) (l_func_addr : list Z)
  : M (list (Z * list similar)) :=
  send_requests fdb l_func_addr ;;
  read_responses fdb l_func_addr.

(** The body of the inner loop of [find_similars], for one function and its
    matches, with the two comment accessors as parameters: Python looks the
    names [get_func_comment] and [set_func_comment] up when the body runs,
    and the script marks both "Currently not implemented"; this says what
    they are called on, whatever they come to do. *)
Definition apply_similars_with (get_comment : idb -> Z -> string)
    (set_comment : Z -> string -> idb -> idb)
    (similarity_cut : Z) (fs : Z * list similar) : M unit :=
  let '(func_addr, similars) := fs in
  match similars with
  | [] => mret tt
  | fsim :: _ =>
      if sim_grade fsim <? similarity_cut then mret tt
      else
        old_name ← reads (fun db => Ok (GetFunctionName db func_addr));
        let new_name :=
          make_fcatalog_name (name fsim) (sim_grade fsim) func_addr in
        writes (MakeName func_addr new_name) ;;
        func_comment ← reads (fun db => Ok (get_comment db func_addr));
        let func_comment_new :=
          add_comment_fcatalog func_comment (comment fsim) in
        writes (set_comment func_addr func_comment_new)
  end.

(** The body as the script runs it, with its own accessors. *)
Definition apply_similars (similarity_cut : Z) (fs : Z * list similar)
  : M unit :=
  apply_similars_with get_func_comment set_func_comment similarity_cut fs.

Definition find_similars (self : FCatalogClient) (similarity_cut : Z)
    (batch_size : nat) : M unit :=
  frame_endpoint ← TCPFrameClient (_remote self);
  fdb ← DBEndpoint frame_endpoint (_db_name self);
  for_each (blockify iter_func_find_candidates batch_size) (fun l_func_addr =>
    bsimilars ← _batch_similars fdb l_func_addr;
    for_ bsimilars (apply_similars similarity_cut)) ;;
  close fdb.

(** The body of the loop of [clean_idb]. *)
Definition clean_func (func_addr : Z) : M unit :=
  fcatalog ← reads (fun db => Ok (is_func_fcatalog db func_addr));
  if negb fcatalog then mret tt
  else
    writes (MakeName func_addr "") ;;
    func_comment ← reads (fun db => Ok (get_func_comment db func_addr));
    writes (set_func_comment func_addr (strip_comment_fcatalog func_comment)).

Definition clean_idb : M unit :=
  for_Functions clean_func.

(** ** Example databases and remotes *)

Module Examples.

Definition nops (n : Z) : list Byte.byte := repeat Byte.x90 (Z.to_nat n).

(** Four functions: a named one, an unnamed one, one that already bears a
    catalog name, and a chunked one. *)
Definition db_ok : idb :=
  {| Functions := [0x1000; 0x2000; 0x3000; 0x4000];
     func_end := fun a => a + 0x80;
     tails := fun a =>
       if a =? 0x4000 then [(a, a + 0x40); (a + 0x100, a + 0x140)]
       else [(a, a + 0x80)];
     bytes_at := fun a n => Some (nops n);
     names := {[ 0x1000 := "httpParse"; 0x2000 := "sub_2000";
                 0x3000 := "FCATALOG__12__memcpy__00003000";
                 0x4000 := "split_fn" ]};
     cmts := {[ 0x1000 := "entry point" ]} |}.

(** The same with a fifth function whose end precedes its start. *)
Definition db_bad : idb :=
  {| Functions := Functions db_ok ++ [0x5000];
     func_end := fun a => if a =? 0x5000 then 0x4ff0 else a + 0x80;
     tails := tails db_ok;
     bytes_at := bytes_at db_ok;
     names := <[ 0x5000 := "parse_header" ]> (names db_ok);
     cmts := cmts db_ok |}.

(** [db_ok] without its two unnamed functions: no find candidate. *)
Definition db_none : idb :=
  {| Functions := [0x1000; 0x4000];
     func_end := func_end db_ok;
     tails := tails db_ok;
     bytes_at := bytes_at db_ok;
     names := names db_ok;
     cmts := cmts db_ok |}.

(** The names of the selection examples, at addresses 1 to 7. *)
Definition db_names : idb :=
  {| Functions := [1; 2; 3; 4; 5; 6; 7];
     func_end := fun a => a + 0x80;
     tails := fun a => [(a, a + 0x80)];
     bytes_at := fun a n => Some (nops n);
     names := {[ 1 := "sub_401000"; 2 := "foo_maybe_bar";
                 3 := "related_helper"; 4 := "FCATALOG__03__f__00000004";
                 5 := "parse_header"; 6 := "Init_MayBe"; 7 := "RELATED_x" ]};
     cmts := ∅ |}.

(** A pair of accessors that do keep comments, in [cmts]. *)
Definition read_comment (db : idb) (a : Z) : string :=
  default "" (cmts db !! a).

Definition store_comment (a : Z) (c : string) (db : idb) : idb :=
  {| Functions := Functions db; func_end := func_end db; tails := tails db;
     bytes_at := bytes_at db; names := names db;
     cmts := <[a := c]> (cmts db) |}.

Definition http_match : similar :=
  {| name := "httpParse"; sim_grade := 10; comment := "parses HTTP" |}.

(** A remote that accepts everything and answers every request with the
    same single match. *)
Definition remote_ok : remote :=
  {| fails := fun _ => None;
     answers := fun _ => Ok [http_match] |}.

(** A remote that drops the connection instead of answering. *)
Definition remote_drop : remote :=
  {| fails := fun _ => None;
     answers := fun _ => Raise ConnectionError |}.

Definition w_ok : world := {| ida := db_ok; net := remote_ok; wire := [] |}.
Definition w_bad : world := {| ida := db_bad; net := remote_ok; wire := [] |}.
Definition w_drop : world := {| ida := db_ok; net := remote_drop; wire := [] |}.

Definition client : FCatalogClient :=
  {| _remote := "127.0.0.1:1337"; _db_name := "test_db" |}.

End Examples.

(** ** Vocabulary of the statements *)

(** A result that is the value [True]. *)
Definition returns_true (r : result bool) : bool :=
  match r with Ok true => true | _ => false end.

(** The [k] lowest digits of [n] in [base], most significant first: the
    text of [n] padded with zeros to [k] digits when [n] has no more. *)
Fixpoint fixed_digits (base : Z) (k : nat) (n : Z) : string :=
  match k with
  | O => ""
  | S k' =>
      fixed_digits base k' (n / base) +:+ String (Py.digit_char (n mod base)) ""
  end.

(** A line without a line boundary in it. *)
Fixpoint one_line (s : string) : bool :=
  match s with
  | EmptyString => true
  | String c s' => negb (Py.is_linebreak c) && one_line s'
  end.

(** A line of the catalog's comment as [add_comment_fcatalog] writes it. *)
Definition marked (ln : string) : string :=
  FCATALOG_COMMENT_PREFIX +:+ " " +:+ ln.

(** Two databases that differ at most by the names of functions. *)
Definition same_but_names (db db' : idb) : Prop :=
  Functions db' = Functions db /\ func_end db' = func_end db /\
  tails db' = tails db /\ bytes_at db' = bytes_at db /\ cmts db' = cmts db.

(** Every run of [m], also one that raises, relates the world before and
    the world after by [R]. *)
Definition relates (R : world -> world -> Prop) {A} (m : M A) : Prop :=
  forall w w' r, m w = (w', r) -> R w w'.

(** A generator that changes nothing in the world, and whose items
    satisfy [P] in the world where they are yielded, when it is asked in a
    world that satisfies [Pre]; what it yields later is asked anywhere. *)
Inductive gen_yields {A} (P : world -> A -> Prop)
  : (world -> Prop) -> gen A -> Prop :=
| gen_yields_intro (Pre : world -> Prop) (nx : M (option (A * gen A))) :
    (forall w w' r, nx w = (w', r) -> w' = w) ->
    (forall w w' x g', Pre w -> nx w = (w', Ok (Some (x, g'))) -> P w x) ->
    (forall w w' x g',
       nx w = (w', Ok (Some (x, g'))) -> gen_yields P (fun _ => True) g') ->
    gen_yields P Pre (Gen nx).

(** A function that [is_func_named] does not take for named. *)
Definition unnamed (w : world) (a : Z) : Prop :=
  is_func_named (ida w) a = false.

(** What [find_similars] may do to the names: a name stays, or the
    function was not named and now bears a catalog name. *)
Definition renames_unnamed (w w' : world) : Prop :=
  same_but_names (ida w) (ida w') /\
  forall a,
    GetFunctionName (ida w') a = GetFunctionName (ida w) a \/
    (is_func_named (ida w) a = false /\ is_func_fcatalog (ida w') a = true).

(** The events of [commit_funcs]. *)
Definition is_commit_event (ev : event) : Prop :=
  match ev with
  | EvConnect _ | EvChooseDb _ | EvAddFunction _ _ _ | EvClose => True
  | _ => False
  end.

(** The events of [find_similars]: every request asks for one match. *)
Definition is_find_event (ev : event) : Prop :=
  match ev with
  | EvConnect _ | EvChooseDb _ | EvResponseSimilars _ | EvClose => True
  | EvRequestSimilars _ num_similars => num_similars = 1
  | EvAddFunction _ _ _ => False
  end.

(** The functions [commit_funcs] adds, in the order of the database. *)
Definition commit_candidates (db : idb) : list Z :=
  List.filter (fun a => returns_true (is_func_commit_candidate db a))
              (Functions db).

(** What [commit_funcs] sends for a function: its name, an empty comment
    and its bytes from start to end. *)
Definition added (db : idb) (a : Z) : event :=
  EvAddFunction (GetFunctionName db a) ""
                (default [] (bytes_at db a (func_end db a - a))).

(** A line that does not start with the marker. *)
Definition unmarked (ln : string) : bool :=
  negb (Py.startswith ln FCATALOG_COMMENT_PREFIX).

(** A list of lines whose last line is empty. *)
Definition ends_empty (lines : list string) : bool :=
  match last lines with
  | Some EmptyString => true
  | _ => false
  end.

(** [w'] comes after [w]: the same remote, the comments IDA keeps are
    untouched, and the connection has grown by events that satisfy [Q]. *)
Definition extends (Q : event -> Prop) (w w' : world) : Prop :=
  net w' = net w /\
  cmts (ida w') = cmts (ida w) /\
  exists tr, wire w' = wire w ++ tr /\ Forall Q tr.

(** Every run of [m], also one that raises, leaves the world extended. *)
Definition keeps (Q : event -> Prop) {A} (m : M A) : Prop :=
  forall w w' r, m w = (w', r) -> extends Q w w'.

(** The same for a generator, each time it is asked. *)
Inductive gen_keeps (Q : event -> Prop) {A} : gen A -> Prop :=
| gen_keeps_intro (nx : M (option (A * gen A))) :
    keeps Q nx ->
    (forall w w' x g', nx w = (w', Ok (Some (x, g'))) -> gen_keeps Q g') ->
    gen_keeps Q (Gen nx).

Definition is_close (ev : event) : bool :=
  match ev with EvClose => true | _ => false end.

Definition not_close (ev : event) : Prop := is_close ev = false.

(** The events of a batch exchange. *)
Definition is_exchange (ev : event) : Prop :=
  match ev with
  | EvRequestSimilars _ _ | EvResponseSimilars _ => True
  | _ => False
  end.

(** A function added to the catalog with an empty comment. *)
Definition adds_no_comment (ev : event) : Prop :=
  match ev with
  | EvAddFunction _ func_comment _ => func_comment = ""
  | _ => False
  end.

(** The comments of the functions added to the catalog, in order. *)
Fixpoint added_comments (tr : list event) : list string :=
  match tr with
  | [] => []
  | EvAddFunction _ func_comment _ :: tr' => func_comment :: added_comments tr'
  | _ :: tr' => added_comments tr'
  end.

(** The number of [close] calls seen on the connection. *)
Definition closes (tr : list event) : nat :=
  length (List.filter is_close tr).

(** * Properties *)

(** ** Reading a function *)

Section Length.

Variable db : idb.

Lemma count_chunks (l : list (Z * Z)) (n : Z) :
  fold_left (fun n _ => n + 1) l n = n + Z.of_nat (length l).
Proof.
  revert n; induction l as [|c l IH]; intros n; simpl.
  - lia.
  - rewrite IH. lia.
Qed.

Lemma is_func_chunked_tails (func_addr : Z) :
  is_func_chunked db func_addr = true <-> (1 < length (tails db func_addr))%nat.
Proof.
  unfold is_func_chunked. rewrite count_chunks, Z.ltb_lt. lia.
Qed.

Lemma get_func_length_ok (func_addr n : Z) :
  get_func_length db func_addr = Ok n ->
  is_func_chunked db func_addr = false /\
  func_addr <= func_end db func_addr /\
  n = func_end db func_addr - func_addr.
Proof.
  unfold get_func_length.
  destruct (is_func_chunked db func_addr); [discriminate|].
  destruct (Z.ltb_spec (func_end db func_addr) func_addr); [discriminate|].
  intros [= <-]. auto.
Qed.

End Length.

(** C8: a function that is chunked (more than one chunk), or whose end
    address precedes its start address, makes [get_func_length] raise the
    client's error ([FCatalogClientError], the only error the script
    declares); no length is returned, in particular not 0. *)
Theorem get_func_length_malformed (db : idb) (func_addr : Z) :
  (1 < length (tails db func_addr))%nat \/ func_end db func_addr < func_addr ->
  (exists msg, get_func_length db func_addr = Raise (FCatalogClientError msg)) /\
  (forall n, get_func_length db func_addr <> Ok n).
Proof.
  intros H.
  assert (Hraise : exists msg,
             get_func_length db func_addr = Raise (FCatalogClientError msg)).
  { unfold get_func_length.
    destruct (is_func_chunked db func_addr) eqn:Hc; [eauto|].
    destruct (Z.ltb_spec (func_end db func_addr) func_addr) as [Hlt|Hge]; [eauto|].
    destruct H as [H|H]; [|lia].
    apply is_func_chunked_tails in H. congruence. }
  split; [exact Hraise|].
  destruct Hraise as [msg ->]. discriminate.
Qed.

Lemma get_func_length_malformed_witness :
  ((exists msg, get_func_length Examples.db_ok 0x4000 = Raise (FCatalogClientError msg)) /\
   (forall n, get_func_length Examples.db_ok 0x4000 <> Ok n)) /\
  ((exists msg, get_func_length Examples.db_bad 0x5000 = Raise (FCatalogClientError msg)) /\
   (forall n, get_func_length Examples.db_bad 0x5000 <> Ok n)).
Proof.
  split.
  - apply (get_func_length_malformed Examples.db_ok 0x4000).
    left. simpl. lia.
  - apply (get_func_length_malformed Examples.db_bad 0x5000).
    right. simpl. lia.
Defined.

(** ** Strings *)

Section Strings.

Lemma append_nil_l (s : string) : "" +:+ s = s.
Proof. reflexivity. Qed.

Lemma append_cons (c : ascii) (s t : string) :
  String c s +:+ t = String c (s +:+ t).
Proof. reflexivity. Qed.

Lemma append_nil_r (s : string) : s +:+ "" = s.
Proof.
  induction s as [|c s IH]; [reflexivity|].
  now rewrite append_cons, IH.
Qed.

Lemma append_assoc (s t u : string) : (s +:+ t) +:+ u = s +:+ (t +:+ u).
Proof.
  induction s as [|c s IH]; [reflexivity|].
  now rewrite !append_cons, IH.
Qed.

Lemma length_append (s t : string) :
  String.length (s +:+ t) = (String.length s + String.length t)%nat.
Proof.
  induction s as [|c s IH]; [reflexivity|].
  rewrite append_cons. simpl. now rewrite IH.
Qed.

Lemma prefix_append (s t : string) : String.prefix s (s +:+ t) = true.
Proof.
  induction s as [|c s IH].
  - now destruct t.
  - rewrite append_cons. simpl.
    destruct (ascii_dec c c); [exact IH|congruence].
Qed.

Lemma startswith_append (s t : string) : Py.startswith (s +:+ t) s = true.
Proof. apply prefix_append. Qed.

Lemma contains_prefix (sub s : string) :
  String.prefix sub s = true -> Py.contains sub s = true.
Proof. intros H. destruct s; cbn [Py.contains]; rewrite H; reflexivity. Qed.

Lemma contains_append (sub pre post : string) :
  Py.contains sub (pre +:+ sub +:+ post) = true.
Proof.
  induction pre as [|c pre IH].
  - rewrite append_nil_l. apply contains_prefix, prefix_append.
  - rewrite append_cons. cbn [Py.contains]. rewrite IH. apply orb_true_r.
Qed.

Lemma lower_append (s t : string) :
  Py.lower (s +:+ t) = Py.lower s +:+ Py.lower t.
Proof.
  induction s as [|c s IH]; [reflexivity|].
  rewrite append_cons. simpl. now rewrite IH, append_cons.
Qed.

(** A name with a part that reads [tok] when put in lower case holds
    [tok] once it is in lower case. *)
Lemma contains_lower (tok part pre post : string) :
  Py.lower part = tok ->
  Py.contains tok (Py.lower (pre +:+ part +:+ post)) = true.
Proof.
  intros <-. rewrite !lower_append. apply contains_append.
Qed.

End Strings.

(** ** Candidate selection *)

Section Selection.

Variable db : idb.
Variable func_addr : Z.

Lemma fcatalog_not_named :
  is_func_fcatalog db func_addr = true -> is_func_named db func_addr = false.
Proof.
  intros H. unfold is_func_named. rewrite H.
  repeat match goal with |- (if ?b then _ else _) = _ => destruct b end;
    reflexivity.
Qed.

Lemma commit_candidate_named :
  returns_true (is_func_commit_candidate db func_addr) = true ->
  is_func_named db func_addr = true.
Proof.
  unfold is_func_commit_candidate.
  destruct (is_func_chunked db func_addr); [discriminate|].
  destruct (is_func_named db func_addr); [reflexivity|discriminate].
Qed.

Lemma find_candidate_not_named :
  returns_true (is_func_find_candidate db func_addr) = true ->
  is_func_named db func_addr = false.
Proof.
  unfold is_func_find_candidate.
  destruct (is_func_chunked db func_addr); [discriminate|].
  destruct (is_func_named db func_addr); [discriminate|reflexivity].
Qed.

(** What the find test comes to for a function that is not named. *)
Lemma find_candidate_unnamed :
  is_func_named db func_addr = false ->
  is_func_find_candidate db func_addr =
    if is_func_chunked db func_addr then Ok false
    else is_func_long_enough db func_addr.
Proof.
  intros H. unfold is_func_find_candidate. rewrite H.
  destruct (is_func_chunked db func_addr); [reflexivity|].
  destruct (is_func_long_enough db func_addr) as [[|]|e]; reflexivity.
Qed.

End Selection.

(** C1, as the script has it: a function whose name starts with
    [FCATALOG__] is not named and is never a commit candidate; the find
    test does not look at the prefix, it answers [False] for a chunked
    function and otherwise what [is_func_long_enough] answers. *)
Theorem fcatalog_name_candidates (db : idb) (func_addr : Z) :
  Py.startswith (GetFunctionName db func_addr) FCATALOG_FUNC_NAME_PREFIX = true ->
  is_func_named db func_addr = false /\
  is_func_commit_candidate db func_addr = Ok false /\
  is_func_find_candidate db func_addr =
    (if is_func_chunked db func_addr then Ok false
     else is_func_long_enough db func_addr).
Proof.
  intros H.
  assert (Hn : is_func_named db func_addr = false)
    by (apply fcatalog_not_named; exact H).
  split; [exact Hn|]. split.
  - unfold is_func_commit_candidate. rewrite Hn.
    destruct (is_func_chunked db func_addr); reflexivity.
  - apply find_candidate_unnamed, Hn.
Qed.

Lemma fcatalog_name_candidates_witness :
  is_func_named Examples.db_ok 0x3000 = false /\
  is_func_commit_candidate Examples.db_ok 0x3000 = Ok false /\
  is_func_find_candidate Examples.db_ok 0x3000 =
    (if is_func_chunked Examples.db_ok 0x3000 then Ok false
     else is_func_long_enough Examples.db_ok 0x3000).
Proof.
  apply (fcatalog_name_candidates Examples.db_ok 0x3000).
  vm_compute. reflexivity.
Defined.

(** C1 as stated fails: the function at 0x3000 bears a catalog name and is
    a find candidate. *)
Lemma fcatalog_name_is_find_candidate :
  Py.startswith (GetFunctionName Examples.db_ok 0x3000)
                FCATALOG_FUNC_NAME_PREFIX = true /\
  is_func_commit_candidate Examples.db_ok 0x3000 = Ok false /\
  is_func_find_candidate Examples.db_ok 0x3000 = Ok true.
Proof. vm_compute. repeat split. Qed.

(** C4: no function is both a commit candidate and a find candidate. *)
Theorem candidates_exclusive (db : idb) (func_addr : Z) :
  returns_true (is_func_commit_candidate db func_addr) &&
  returns_true (is_func_find_candidate db func_addr) = false.
Proof.
  destruct (returns_true (is_func_commit_candidate db func_addr)) eqn:Hc;
    [|reflexivity].
  destruct (returns_true (is_func_find_candidate db func_addr)) eqn:Hf;
    [|reflexivity].
  apply commit_candidate_named in Hc.
  apply find_candidate_not_named in Hf.
  congruence.
Qed.

(** C9: [is_func_named] is [False] for "sub_401000", "foo_maybe_bar",
    "related_helper" and every name that starts with [FCATALOG__], and
    [True] for "parse_header"; a name with a part that reads "_maybe",
    "maybe_", "_related" or "related_" in any mix of cases is not named. *)
Theorem is_func_named_heuristic (db : idb) (func_addr : Z) :
  let func_name := GetFunctionName db func_addr in
  (func_name = "sub_401000" -> is_func_named db func_addr = false) /\
  (func_name = "foo_maybe_bar" -> is_func_named db func_addr = false) /\
  (func_name = "related_helper" -> is_func_named db func_addr = false) /\
  (Py.startswith func_name FCATALOG_FUNC_NAME_PREFIX = true ->
   is_func_named db func_addr = false) /\
  (func_name = "parse_header" -> is_func_named db func_addr = true) /\
  (forall pre part post,
     func_name = pre +:+ part +:+ post ->
     Py.lower part = "_maybe" \/ Py.lower part = "maybe_" \/
     Py.lower part = "_related" \/ Py.lower part = "related_" ->
     is_func_named db func_addr = false).
Proof.
  intros func_name.
  assert (Hex : forall n, func_name = n ->
                  is_func_named db func_addr =
                  is_func_named {| Functions := []; func_end := fun a => a;
                                   tails := fun _ => []; bytes_at := fun _ _ => None;
                                   names := {[ 0 := n ]}; cmts := ∅ |} 0).
  { intros n Hn. unfold is_func_named, is_func_fcatalog.
    fold func_name. rewrite Hn.
    unfold GetFunctionName. simpl. rewrite lookup_singleton_eq. reflexivity. }
  repeat split.
  - intros H. rewrite (Hex _ H). vm_compute. reflexivity.
  - intros H. rewrite (Hex _ H). vm_compute. reflexivity.
  - intros H. rewrite (Hex _ H). vm_compute. reflexivity.
  - apply fcatalog_not_named.
  - intros H. rewrite (Hex _ H). vm_compute. reflexivity.
  - intros pre part post Hname Hpart.
    unfold is_func_named. fold func_name. rewrite Hname.
    destruct (Py.startswith _ "sub_"); [reflexivity|].
    destruct Hpart as [H|[H|[H|H]]];
      rewrite (contains_lower _ _ pre post H);
      rewrite ?orb_true_r; simpl; try reflexivity.
    + destruct (_ || _); reflexivity.
    + destruct (_ || _); reflexivity.
Qed.

Lemma is_func_named_heuristic_witness :
  is_func_named Examples.db_names 1 = false /\
  is_func_named Examples.db_names 2 = false /\
  is_func_named Examples.db_names 3 = false /\
  is_func_named Examples.db_names 4 = false /\
  is_func_named Examples.db_names 5 = true /\
  is_func_named Examples.db_names 6 = false /\
  is_func_named Examples.db_names 7 = false.
Proof.
  refine (conj _ (conj _ (conj _ (conj _ (conj _ (conj _ _)))))).
  - destruct (is_func_named_heuristic Examples.db_names 1) as (H & _).
    apply H. reflexivity.
  - destruct (is_func_named_heuristic Examples.db_names 2) as (_ & H & _).
    apply H. reflexivity.
  - destruct (is_func_named_heuristic Examples.db_names 3) as (_ & _ & H & _).
    apply H. reflexivity.
  - destruct (is_func_named_heuristic Examples.db_names 4)
      as (_ & _ & _ & H & _).
    apply H. reflexivity.
  - destruct (is_func_named_heuristic Examples.db_names 5)
      as (_ & _ & _ & _ & H & _).
    apply H. reflexivity.
  - destruct (is_func_named_heuristic Examples.db_names 6)
      as (_ & _ & _ & _ & _ & H).
    apply (H "Init" "_MayBe" ""); [reflexivity | left; reflexivity].
  - destruct (is_func_named_heuristic Examples.db_names 7)
      as (_ & _ & _ & _ & _ & H).
    apply (H "" "RELATED_" "x");
      [reflexivity | right; right; right; reflexivity].
Defined.

(** ** Naming codec: names *)

Section Digits.

Variable base : Z.
Hypothesis base_ge_2 : 2 <= base.

Lemma fixed_digits_zero (k : nat) :
  fixed_digits base k 0 = Py.repeat_char (Py.digit_char 0) k.
Proof.
  induction k as [|k IH]; [reflexivity|].
  cbn [fixed_digits]. rewrite Z.div_0_l, Z.mod_0_l, IH by lia.
  clear IH. induction k as [|k IH]; [reflexivity|].
  cbn [Py.repeat_char]. rewrite append_cons, IH. reflexivity.
Qed.

Lemma repeat_char_snoc (c : ascii) (k : nat) (s : string) :
  Py.repeat_char c k +:+ String c s = String c (Py.repeat_char c k +:+ s).
Proof.
  induction k as [|k IH]; [reflexivity|].
  cbn [Py.repeat_char]. rewrite !append_cons, IH. reflexivity.
Qed.

(** The digits written for [n] are the last digits of its fixed-width
    text, and the digits before them are zeros. *)
Lemma digits_from_fixed (fuel : nat) :
  forall (n : Z) (acc : string) (k : nat),
    (1 <= k)%nat -> 0 <= n < base ^ Z.of_nat k ->
    n < base ^ Z.of_nat (S fuel) ->
    exists s,
      Py.digits_from fuel base n acc = s +:+ acc /\
      (String.length s <= k)%nat /\
      Py.repeat_char (Py.digit_char 0) (k - String.length s) +:+ s
        = fixed_digits base k n.
Proof.
  assert (Hlast : forall (n : Z) (acc : string) (k : nat),
             (1 <= k)%nat -> n / base = 0 ->
             exists s,
               String (Py.digit_char (n mod base)) acc = s +:+ acc /\
               (String.length s <= k)%nat /\
               Py.repeat_char (Py.digit_char 0) (k - String.length s) +:+ s
                 = fixed_digits base k n).
  { intros n acc k Hk Hq.
    exists (String (Py.digit_char (n mod base)) "").
    split; [reflexivity|]. split; [simpl; lia|].
    destruct k as [|k]; [lia|].
    cbn [fixed_digits String.length]. rewrite Hq, fixed_digits_zero.
    replace (S k - 1)%nat with k by lia. reflexivity. }
  induction fuel as [|fuel IH]; intros n acc k Hk Hn Hfuel.
  - cbn [Py.digits_from]. apply Hlast; [exact Hk|].
    apply Z.div_small. rewrite Z.pow_1_r in Hfuel. lia.
  - cbn [Py.digits_from].
    destruct (Z.eqb_spec (n / base) 0) as [Hq|Hq]; [apply Hlast; assumption|].
    destruct k as [|[|k]]; [lia| |].
    + exfalso. apply Hq, Z.div_small. rewrite Z.pow_1_r in Hn. lia.
    + destruct (IH (n / base) (String (Py.digit_char (n mod base)) acc) (S k))
        as (s & Hs & Hlen & Hpad).
      * lia.
      * split; [apply Z.div_pos; lia|].
        apply Z.div_lt_upper_bound; [lia|].
        rewrite <- Z.pow_succ_r by lia. rewrite <- Nat2Z.inj_succ. lia.
      * apply Z.div_lt_upper_bound; [lia|].
        rewrite <- Z.pow_succ_r by lia. rewrite <- Nat2Z.inj_succ. lia.
      * exists (s +:+ String (Py.digit_char (n mod base)) "").
        split; [rewrite Hs, append_assoc; reflexivity|].
        rewrite length_append. cbn [String.length].
        split; [lia|].
        cbn [fixed_digits] in *. rewrite <- Hpad, append_assoc.
        replace (S (S k) - (String.length s + 1))%nat
          with (S k - String.length s)%nat by lia.
        reflexivity.
Qed.

Lemma log2_fuel (n : Z) : 0 <= n -> n < base ^ Z.of_nat (S (Z.to_nat (Z.log2 n))).
Proof.
  intros Hn.
  destruct (Z.eq_dec n 0) as [->|Hnz].
  - apply Z.pow_pos_nonneg; lia.
  - assert (Hlog := Z.log2_spec n ltac:(lia)).
    assert (H0 := Z.log2_nonneg n).
    rewrite Nat2Z.inj_succ, Z2Nat.id by lia.
    assert (2 ^ Z.succ (Z.log2 n) <= base ^ Z.succ (Z.log2 n))
      by (apply Z.pow_le_mono_l; lia).
    lia.
Qed.

(** [{:0>k}] applied to a number of at most [k] digits writes exactly
    its [k] fixed digits. *)
Lemma rjust0_format_int (k : nat) (n : Z) :
  (1 <= k)%nat -> 0 <= n < base ^ Z.of_nat k ->
  Py.rjust0 k (Py.format_int base n) = fixed_digits base k n.
Proof.
  intros Hk Hn. unfold Py.format_int, Py.digits, Py.rjust0.
  destruct (Z.ltb_spec n 0) as [?|_]; [lia|].
  destruct (digits_from_fixed (Z.to_nat (Z.log2 n)) n "" k Hk Hn)
    as (s & Hs & _ & Hpad).
  - apply log2_fuel. lia.
  - rewrite Hs, append_nil_r. exact Hpad.
Qed.

End Digits.

(** C7: for a grade between 0 and 16 the catalog name is the prefix
    [FCATALOG__], the grade on two digits, "__", the original name, "__"
    and the lower 32 bits of the address on eight hexadecimal digits. *)
Theorem make_fcatalog_name_layout (func_name : string) (sim_grade func_addr : Z) :
  0 <= sim_grade <= MAX_SIM_GRADE ->
  make_fcatalog_name func_name sim_grade func_addr =
    "FCATALOG__" +:+ fixed_digits 10 2 sim_grade +:+ "__" +:+ func_name +:+
    "__" +:+ fixed_digits 16 8 (func_addr mod 2 ^ 32).
Proof.
  intros Hg. unfold MAX_SIM_GRADE in Hg. unfold make_fcatalog_name.
  change 0xffffffff with (Z.ones 32). rewrite Z.land_ones by lia.
  assert (Hm := Z.mod_pos_bound func_addr (2 ^ 32) ltac:(lia)).
  rewrite (rjust0_format_int 10) by (simpl; lia).
  rewrite (rjust0_format_int 16) by (simpl; lia).
  unfold Py.join. cbn [String.concat]. unfold FCATALOG_FUNC_NAME_PREFIX.
  rewrite append_nil_l, !append_assoc. reflexivity.
Qed.

Lemma make_fcatalog_name_layout_witness :
  make_fcatalog_name "httpParse" 10 0x2000 = "FCATALOG__10__httpParse__00002000".
Proof.
  rewrite (make_fcatalog_name_layout "httpParse" 10 0x2000).
  - reflexivity.
  - unfold MAX_SIM_GRADE. lia.
Defined.

(** ** Naming codec: comments *)

Section Lines.

Lemma splitlines_from_nil (cur : string) :
  Py.splitlines_from cur "" = match cur with EmptyString => [] | _ => [cur] end.
Proof. reflexivity. Qed.

Lemma splitlines_from_LF (cur rest : string) :
  Py.splitlines_from cur (String Py.LF rest) = cur :: Py.splitlines_from "" rest.
Proof. reflexivity. Qed.

Lemma not_linebreak (c : ascii) :
  Py.is_linebreak c = false -> Ascii.eqb c Py.CR = false /\ Ascii.eqb c Py.LF = false.
Proof.
  unfold Py.is_linebreak. intros H. apply orb_false_elim in H. tauto.
Qed.

(** Reading a text without line boundaries extends the current line. *)
Lemma splitlines_from_one_line (l : string) :
  forall cur rest,
    one_line l = true ->
    Py.splitlines_from cur (l +:+ rest) = Py.splitlines_from (cur +:+ l) rest.
Proof.
  induction l as [|c l IH]; intros cur rest Hl.
  - rewrite append_nil_l, append_nil_r. reflexivity.
  - cbn [one_line] in Hl. apply andb_prop in Hl as [Hc Hl].
    apply negb_true_iff, not_linebreak in Hc as [Hcr Hlf].
    rewrite append_cons. cbn [Py.splitlines_from]. rewrite Hcr, Hlf.
    rewrite IH by exact Hl. rewrite append_assoc. reflexivity.
Qed.

Lemma one_line_append (s t : string) :
  one_line (s +:+ t) = one_line s && one_line t.
Proof.
  induction s as [|c s IH]; [reflexivity|].
  rewrite append_cons. cbn [one_line]. rewrite IH. apply andb_assoc.
Qed.

(** The lines [splitlines] returns have no line boundary in them. *)
Lemma splitlines_from_lines (s : string) :
  (forall cur, one_line cur = true ->
               Forall (fun l => one_line l = true) (Py.splitlines_from cur s)) /\
  (forall c cur, one_line cur = true ->
                 Forall (fun l => one_line l = true)
                        (Py.splitlines_from cur (String c s))).
Proof.
  induction s as [|a s [IH1 IH2]].
  - split.
    + intros [|c cur] H; cbn; auto.
    + intros c cur H. cbn [Py.splitlines_from].
      destruct (Ascii.eqb c Py.CR) eqn:Hcr; [cbn; auto|].
      destruct (Ascii.eqb c Py.LF) eqn:Hlf; [cbn; auto|].
      destruct (cur +:+ String c "") eqn:E; [auto|]. rewrite <- E.
      constructor; [|constructor].
      rewrite one_line_append, H. cbn [one_line].
      unfold Py.is_linebreak. rewrite Hcr, Hlf. reflexivity.
  - split; [exact (IH2 a)|].
    intros c cur H.
    change (Py.splitlines_from cur (String c (String a s))) with
      (if Ascii.eqb c Py.CR then
         if Ascii.eqb a Py.LF then cur :: Py.splitlines_from "" s
         else cur :: Py.splitlines_from "" (String a s)
       else if Ascii.eqb c Py.LF then cur :: Py.splitlines_from "" (String a s)
       else Py.splitlines_from (cur +:+ String c "") (String a s)).
    destruct (Ascii.eqb c Py.CR) eqn:Hcr.
    + destruct (Ascii.eqb a Py.LF); constructor; auto.
    + destruct (Ascii.eqb c Py.LF) eqn:Hlf; [constructor; auto|].
      apply IH2. rewrite one_line_append, H. cbn [one_line].
      unfold Py.is_linebreak. rewrite Hcr, Hlf. reflexivity.
Qed.

Lemma splitlines_lines (s : string) :
  Forall (fun l => one_line l = true) (Py.splitlines s).
Proof. apply splitlines_from_lines. reflexivity. Qed.

Lemma join_cons_cons (sep l l2 : string) (L : list string) :
  Py.join sep (l :: l2 :: L) = l +:+ sep +:+ Py.join sep (l2 :: L).
Proof. reflexivity. Qed.

(** Splitting the join of lines gives the lines back, but for an empty
    last line, which is lost. *)
Lemma splitlines_join (L : list string) :
  Forall (fun l => one_line l = true) L ->
  Py.splitlines (Py.join Py.NL L) =
    if ends_empty L then removelast L else L.
Proof.
  unfold Py.splitlines.
  induction L as [|l [|l2 L] IH]; intros HL.
  - reflexivity.
  - inversion_clear HL as [|? ? Hl _].
    change (Py.join Py.NL [l]) with l.
    rewrite <- (append_nil_r l) at 1.
    rewrite splitlines_from_one_line, append_nil_l, splitlines_from_nil by exact Hl.
    destruct l; reflexivity.
  - inversion_clear HL as [|? ? Hl HL'].
    rewrite join_cons_cons.
    rewrite splitlines_from_one_line, append_nil_l by exact Hl.
    unfold Py.NL at 1. rewrite append_cons, append_nil_l, splitlines_from_LF.
    rewrite IH by exact HL'.
    unfold ends_empty. rewrite last_cons_cons.
    destruct (last (l2 :: L)) as [[|]|]; reflexivity.
Qed.

(** A text that its lines give back has no empty last line. *)
Lemma join_splitlines_ends (C : string) :
  Py.join Py.NL (Py.splitlines C) = C -> ends_empty (Py.splitlines C) = false.
Proof.
  intros HC.
  assert (H := splitlines_join (Py.splitlines C) (splitlines_lines C)).
  rewrite HC in H.
  destruct (ends_empty (Py.splitlines C)) eqn:E; [|reflexivity].
  exfalso. apply (f_equal (@length string)) in H.
  unfold ends_empty in E.
  destruct (last (Py.splitlines C)) as [x|] eqn:El; [|discriminate].
  apply last_Some in El as [L' El]. rewrite El in H.
  rewrite removelast_last, length_app in H. simpl in H. lia.
Qed.

End Lines.

Section Comments.

Lemma marked_startswith (ln : string) :
  Py.startswith (marked ln) FCATALOG_COMMENT_PREFIX = true.
Proof. apply startswith_append. Qed.

Lemma marked_one_line (ln : string) : one_line ln = true -> one_line (marked ln) = true.
Proof. intros H. unfold marked. rewrite !one_line_append, H. reflexivity. Qed.

Lemma filter_marked (lines : list string) :
  List.filter (fun ln => negb (Py.startswith ln FCATALOG_COMMENT_PREFIX))
              (map marked lines) = [].
Proof.
  induction lines as [|ln lines IH]; [reflexivity|].
  cbn [map List.filter]. rewrite marked_startswith. exact IH.
Qed.

Lemma filter_unmarked (lines : list string) :
  Forall (fun ln => Py.startswith ln FCATALOG_COMMENT_PREFIX = false) lines ->
  List.filter (fun ln => negb (Py.startswith ln FCATALOG_COMMENT_PREFIX)) lines
    = lines.
Proof.
  induction 1 as [|ln lines Hln _ IH]; [reflexivity|].
  cbn [List.filter]. rewrite Hln, IH. reflexivity.
Qed.

Lemma ends_empty_marked (lines : list string) :
  ends_empty (map marked lines) = false.
Proof.
  unfold ends_empty.
  destruct (last (map marked lines)) as [x|] eqn:E; [|reflexivity].
  apply last_Some in E as [L' E].
  assert (Hin : In x (map marked lines))
    by (rewrite E; apply in_or_app; right; left; reflexivity).
  apply in_map_iff in Hin as (ln & <- & _). reflexivity.
Qed.

Lemma ends_empty_app (l1 l2 : list string) :
  ends_empty l1 = false -> ends_empty l2 = false -> ends_empty (l1 ++ l2) = false.
Proof.
  unfold ends_empty. rewrite last_app.
  destruct (last l2); auto.
Qed.

(** The lines [add_comment_fcatalog] joins are read back as they are. *)
Lemma splitlines_add_comment (C K : string) :
  ends_empty (Py.splitlines C) = false ->
  Py.splitlines (add_comment_fcatalog C K) =
    map marked (Py.splitlines K) ++ Py.splitlines C.
Proof.
  intros HC. unfold add_comment_fcatalog. fold marked.
  rewrite splitlines_join.
  - rewrite ends_empty_app; auto using ends_empty_marked.
  - apply Forall_app. split; [|apply splitlines_lines].
    apply Forall_forall. intros x Hx.
    apply list_elem_of_In, in_map_iff in Hx as (ln & <- & Hln).
    apply marked_one_line.
    pose proof (splitlines_lines K) as HK.
    rewrite Forall_forall in HK. apply HK, list_elem_of_In, Hln.
Qed.

End Comments.

(** C2, as the script has it: stripping after adding gives the comment
    back when the comment is the "\n"-join of its own lines (it has no
    line break at its end and no "\r") and none of its lines starts with
    the marker [%%%]. *)
Theorem strip_add_comment (C K : string) :
  Py.join Py.NL (Py.splitlines C) = C ->
  Forall (fun ln => Py.startswith ln FCATALOG_COMMENT_PREFIX = false)
         (Py.splitlines C) ->
  strip_comment_fcatalog (add_comment_fcatalog C K) = C.
Proof.
  intros Hjoin Hmark.
  unfold strip_comment_fcatalog.
  rewrite splitlines_add_comment by (apply join_splitlines_ends, Hjoin).
  rewrite List.filter_app, filter_marked, filter_unmarked by exact Hmark.
  exact Hjoin.
Qed.

Lemma strip_add_comment_witness :
  strip_comment_fcatalog
    (add_comment_fcatalog ("first line" +:+ Py.NL +:+ Py.NL +:+ "third % line")
                          ("parses HTTP" +:+ Py.NL +:+ "v2"))
  = "first line" +:+ Py.NL +:+ Py.NL +:+ "third % line".
Proof.
  apply (strip_add_comment ("first line" +:+ Py.NL +:+ Py.NL +:+ "third % line")
                           ("parses HTTP" +:+ Py.NL +:+ "v2")).
  - vm_compute. reflexivity.
  - vm_compute. repeat constructor.
Defined.

(** C2 as stated fails: a line break at the end of the comment is lost,
    and so is a line of the comment that starts with the marker. *)
Lemma strip_add_comment_loses :
  strip_comment_fcatalog (add_comment_fcatalog ("a" +:+ Py.NL) "k") = "a" /\
  strip_comment_fcatalog (add_comment_fcatalog ("a" +:+ Py.NL) "k") <> "a" +:+ Py.NL /\
  strip_comment_fcatalog (add_comment_fcatalog "%%% mine" "k") = "" /\
  strip_comment_fcatalog (add_comment_fcatalog "%%% mine" "k") <> "%%% mine".
Proof. vm_compute. repeat split; discriminate. Qed.

(** ** Running the client *)

Section Runs.

Lemma bind_ok {A B} (m : M A) (f : A -> M B) (w w' : world) (a : A) :
  m w = (w', Ok a) -> (m ≫= f) w = f a w'.
Proof. intros H. unfold mbind, M_bind. rewrite H. reflexivity. Qed.

Lemma bind_raise {A B} (m : M A) (f : A -> M B) (w w' : world) (e : exn) :
  m w = (w', Raise e) -> (m ≫= f) w = (w', Raise e).
Proof. intros H. unfold mbind, M_bind. rewrite H. reflexivity. Qed.

Lemma with_wire_id (w : world) : with_wire w (wire w) = w.
Proof. destruct w; reflexivity. Qed.

Lemma with_wire_twice (w : world) (tr tr' : list event) :
  with_wire (with_wire w tr) tr' = with_wire w tr'.
Proof. reflexivity. Qed.

Lemma send_ok (ev : event) (w : world) :
  fails (net w) (length (wire w)) = None ->
  send ev w = (with_wire w (wire w ++ [ev]), Ok tt).
Proof. intros H. unfold send. rewrite H. reflexivity. Qed.

Lemma response_ok (fdb : DBEndpoint_t) (w : world) (r : list similar) :
  answers (net w) (length (wire w)) = Ok r ->
  response_similars fdb w = (with_wire w (wire w ++ [EvResponseSimilars r]), Ok r).
Proof. intros H. unfold response_similars. rewrite H. reflexivity. Qed.

Variable fdb : DBEndpoint_t.

Lemma send_requests_run (l : list Z) (ds : list (list Byte.byte)) :
  forall w,
    Forall2 (fun a d => get_func_data (ida w) a = Ok d) l ds ->
    (forall i, (i < length l)%nat -> fails (net w) (length (wire w) + i) = None) ->
    send_requests fdb l w =
      (with_wire w (wire w ++ map (fun d => EvRequestSimilars d 1) ds), Ok tt).
Proof.
  revert ds. induction l as [|a l IH]; intros ds w Hds Hsend.
  - inversion Hds; subst. simpl. rewrite app_nil_r, with_wire_id. reflexivity.
  - inversion Hds as [|? d ? ds' Hd Hds']; subst.
    unfold send_requests. cbn [for_].
    erewrite bind_ok; cycle 1.
    { erewrite bind_ok; [|unfold reads; rewrite Hd; reflexivity].
      unfold request_similars. apply send_ok.
      rewrite <- (Hsend 0%nat) by (simpl; lia). f_equal. lia. }
    fold (send_requests fdb l). rewrite (IH ds').
    + cbn [wire with_wire map]. rewrite <- app_assoc. reflexivity.
    + exact Hds'.
    + intros i Hi. cbn [wire with_wire net]. rewrite length_app. simpl.
      rewrite <- (Hsend (S i)) by (simpl; lia). f_equal. lia.
Qed.

Lemma read_responses_run (l : list Z) (rs : list (list similar)) :
  forall w,
    length rs = length l ->
    (forall i r, rs !! i = Some r ->
                 answers (net w) (length (wire w) + i) = Ok r) ->
    read_responses fdb l w =
      (with_wire w (wire w ++ map EvResponseSimilars rs), Ok (zip l rs)).
Proof.
  revert rs. induction l as [|a l IH]; intros rs w Hlen Hans.
  - destruct rs; [|discriminate]. simpl.
    rewrite app_nil_r, with_wire_id. reflexivity.
  - destruct rs as [|r rs]; [discriminate|].
    unfold read_responses. cbn [collect].
    erewrite bind_ok; cycle 1.
    { erewrite bind_ok; [reflexivity|]. apply response_ok.
      rewrite <- (Hans 0%nat r) by reflexivity. f_equal. lia. }
    fold (read_responses fdb l).
    erewrite bind_ok; cycle 1.
    { apply (IH rs).
      - simpl in Hlen. lia.
      - intros i r' Hi. cbn [wire with_wire net]. rewrite length_app. simpl.
        rewrite <- (Hans (S i) r') by exact Hi. f_equal. lia. }
    cbn [wire with_wire map zip zip_with]. rewrite <- app_assoc. reflexivity.
Qed.

(** Whatever happens, the requests sent are those of a first part of the
    batch, in order, and all of them when the loop ends well. *)
Lemma send_requests_any (l : list Z) :
  forall w w' r,
    send_requests fdb l w = (w', r) ->
    exists ds,
      w' = with_wire w (wire w ++ map (fun d => EvRequestSimilars d 1) ds) /\
      Forall2 (fun a d => get_func_data (ida w) a = Ok d) (take (length ds) l) ds /\
      (is_ok r = true -> length ds = length l).
Proof.
  induction l as [|a l IH]; intros w w' r Hrun.
  - injection Hrun as <- <-. exists []. simpl.
    rewrite app_nil_r, with_wire_id. auto.
  - unfold send_requests in Hrun. cbn [for_] in Hrun.
    fold (send_requests fdb l) in Hrun.
    unfold mbind, M_bind, reads, request_similars, send in Hrun.
    destruct (get_func_data (ida w) a) as [d|e] eqn:Hd.
    + destruct (fails (net w) (length (wire w))) as [e|].
      * injection Hrun as <- <-. exists []. simpl.
        rewrite app_nil_r, with_wire_id. split; [reflexivity|].
        split; [constructor|discriminate].
      * cbn [emit] in Hrun. apply IH in Hrun as (ds & -> & Hds & Hok).
        exists (d :: ds). cbn [wire with_wire ida map length take] in *.
        rewrite <- app_assoc. split; [reflexivity|].
        split; [constructor; assumption|]. intros H. rewrite Hok; auto.
    + injection Hrun as <- <-. exists []. simpl.
      rewrite app_nil_r, with_wire_id. split; [reflexivity|].
      split; [constructor|discriminate].
Qed.

(** Whatever happens, the responses read are the next ones on the
    connection, at most one per function, and the pairs are positional. *)
Lemma read_responses_any (l : list Z) :
  forall w w' r,
    read_responses fdb l w = (w', r) ->
    exists rs,
      w' = with_wire w (wire w ++ map EvResponseSimilars rs) /\
      (length rs <= length l)%nat /\
      (forall i x, rs !! i = Some x ->
                   answers (net w) (length (wire w) + i) = Ok x) /\
      (forall res, r = Ok res -> res = zip l rs /\ length rs = length l).
Proof.
  induction l as [|a l IH]; intros w w' r Hrun.
  - injection Hrun as <- <-. exists []. simpl.
    rewrite app_nil_r, with_wire_id.
    repeat split; try lia; try discriminate; congruence.
  - unfold read_responses in Hrun. cbn [collect] in Hrun.
    fold (read_responses fdb l) in Hrun.
    unfold mbind, M_bind, response_similars in Hrun.
    destruct (answers (net w) (length (wire w))) as [x|e] eqn:Hx.
    + cbn [mret M_ret] in Hrun.
      destruct (read_responses fdb l _) as [w1 r1] eqn:Hrest.
      apply IH in Hrest as (rs & -> & Hlen & Hans & Hres).
      exists (x :: rs). cbn [wire with_wire net map length] in *.
      rewrite <- app_assoc in Hrun. unfold mret, M_ret in Hrun.
      split.
      { destruct r1; injection Hrun as <- <-; reflexivity. }
      split; [lia|]. split.
      * intros [|i] y Hy.
        -- injection Hy as <-. rewrite Nat.add_0_r. exact Hx.
        -- rewrite <- (Hans i y Hy), length_app. simpl. f_equal. lia.
      * intros res ->. destruct r1 as [res1|e]; [|discriminate].
        injection Hrun as _ <-. destruct (Hres res1 eq_refl) as [-> Hl].
        split; [reflexivity|lia].
    + injection Hrun as <- <-. exists []. simpl.
      rewrite app_nil_r, with_wire_id.
      repeat split; try lia; try discriminate.
Qed.

End Runs.

(** C6: when the data of every function of the batch can be read and the
    connection holds, [_batch_similars] sends one request per function, in
    the order of the batch, then reads as many responses, and pairs
    function [i] with response [i].  In every run, also one that raises,
    what it adds to the connection is requests for a first part of the
    batch followed by responses, and a response is read only when the
    requests of the whole batch have been sent. *)
Theorem batch_similars_exchange (fdb : DBEndpoint_t) (w : world) (l : list Z) :
  (forall ds rs,
     Forall2 (fun a d => get_func_data (ida w) a = Ok d) l ds ->
     (forall i, (i < length l)%nat ->
                fails (net w) (length (wire w) + i) = None) ->
     length rs = length l ->
     (forall i r, rs !! i = Some r ->
                  answers (net w) (length (wire w) + length l + i) = Ok r) ->
     _batch_similars fdb l w =
       (with_wire w (wire w ++ map (fun d => EvRequestSimilars d 1) ds
                            ++ map EvResponseSimilars rs),
        Ok (zip l rs))) /\
  (forall w' r,
     _batch_similars fdb l w = (w', r) ->
     exists ds rs,
       w' = with_wire w (wire w ++ map (fun d => EvRequestSimilars d 1) ds
                                ++ map EvResponseSimilars rs) /\
       Forall2 (fun a d => get_func_data (ida w) a = Ok d) (take (length ds) l) ds /\
       (rs <> [] -> length ds = length l) /\
       (forall res, r = Ok res ->
          length ds = length l /\ length rs = length l /\ res = zip l rs)).
Proof.
  split.
  - intros ds rs Hds Hsend Hlen Hans. unfold _batch_similars.
    erewrite bind_ok by (apply send_requests_run; eassumption).
    rewrite (read_responses_run fdb l rs).
    + cbn [wire with_wire]. rewrite <- app_assoc. reflexivity.
    + exact Hlen.
    + intros i r Hi. cbn [wire with_wire net].
      rewrite length_app, length_map.
      rewrite <- (Forall2_length _ _ _ Hds).
      apply Hans, Hi.
  - intros w' r Hrun. unfold _batch_similars, mbind, M_bind in Hrun.
    destruct (send_requests fdb l w) as [w1 r1] eqn:Hsend.
    apply send_requests_any in Hsend as (ds & -> & Hds & Hall).
    destruct r1 as [[]|e].
    + apply read_responses_any in Hrun as (rs & -> & Hlen & _ & Hres).
      exists ds, rs. cbn [wire with_wire]. rewrite <- app_assoc.
      split; [reflexivity|]. split; [exact Hds|].
      split; [intros _; apply Hall; reflexivity|].
      intros res ->. destruct (Hres res eq_refl) as [-> Hl].
      split; [apply Hall; reflexivity|]. split; [exact Hl|reflexivity].
    + injection Hrun as <- <-. exists ds, []. simpl. rewrite app_nil_r.
      split; [reflexivity|]. split; [exact Hds|].
      split; [congruence|discriminate].
Qed.

(** ** What the loops keep *)

Section Keeps.

Variable Q : event -> Prop.

Lemma extends_refl (w : world) : extends Q w w.
Proof.
  split; [reflexivity|]. split; [reflexivity|].
  exists []. rewrite app_nil_r. auto.
Qed.

Lemma extends_trans (w1 w2 w3 : world) :
  extends Q w1 w2 -> extends Q w2 w3 -> extends Q w1 w3.
Proof.
  intros (Hn1 & Hc1 & tr1 & Hw1 & Hq1) (Hn2 & Hc2 & tr2 & Hw2 & Hq2).
  split; [congruence|]. split; [congruence|].
  exists (tr1 ++ tr2). rewrite Hw2, Hw1, <- app_assoc.
  split; [reflexivity|]. apply Forall_app; auto.
Qed.

Lemma extends_event (w : world) (ev : event) :
  Q ev -> extends Q w (with_wire w (wire w ++ [ev])).
Proof.
  intros H. split; [reflexivity|]. split; [reflexivity|].
  exists [ev]. auto.
Qed.

Lemma keeps_ret {A} (a : A) : keeps Q (mret a : M A).
Proof. intros w w' r [= <- <-]. apply extends_refl. Qed.

Lemma keeps_bind {A B} (m : M A) (f : A -> M B) :
  keeps Q m -> (forall a, keeps Q (f a)) -> keeps Q (m ≫= f).
Proof.
  intros Hm Hf w w' r Hrun. unfold mbind, M_bind in Hrun.
  destruct (m w) as [w1 [a|e]] eqn:E.
  - eapply extends_trans; [eapply Hm, E|eapply Hf, Hrun].
  - injection Hrun as <- <-. eapply Hm, E.
Qed.

Lemma keeps_reads {A} (f : idb -> result A) : keeps Q (reads f).
Proof. intros w w' r [= <- <-]. apply extends_refl. Qed.

Lemma keeps_MakeName (func_addr : Z) (new_name : string) :
  keeps Q (writes (MakeName func_addr new_name)).
Proof.
  intros w w' r [= <- <-]. split; [reflexivity|]. split; [reflexivity|].
  exists []. simpl. rewrite app_nil_r. auto.
Qed.

Lemma keeps_set_func_comment (func_addr : Z) (c : string) :
  keeps Q (writes (set_func_comment func_addr c)).
Proof.
  intros w w' r [= <- <-]. split; [reflexivity|]. split; [reflexivity|].
  exists []. simpl. rewrite app_nil_r. auto.
Qed.

Lemma keeps_send (ev : event) : Q ev -> keeps Q (send ev).
Proof.
  intros H w w' r Hrun. unfold send, emit in Hrun.
  destruct (fails (net w) (length (wire w))); injection Hrun as <- <-.
  - apply extends_refl.
  - apply extends_event, H.
Qed.

Lemma keeps_response (fdb : DBEndpoint_t) :
  (forall r, Q (EvResponseSimilars r)) -> keeps Q (response_similars fdb).
Proof.
  intros H w w' r Hrun. unfold response_similars in Hrun.
  destruct (answers (net w) (length (wire w))); injection Hrun as <- <-.
  - apply extends_event, H.
  - apply extends_refl.
Qed.

Lemma keeps_for {A} (l : list A) (body : A -> M unit) :
  (forall x, keeps Q (body x)) -> keeps Q (for_ l body).
Proof.
  intros Hbody. induction l as [|x l IH]; cbn [for_].
  - apply keeps_ret.
  - apply keeps_bind; auto.
Qed.

Lemma keeps_collect {A B} (l : list A) (body : A -> M B) :
  (forall x, keeps Q (body x)) -> keeps Q (collect l body).
Proof.
  intros Hbody. induction l as [|x l IH]; cbn [collect].
  - apply keeps_ret.
  - apply keeps_bind; [auto|]. intros y.
    apply keeps_bind; [auto|]. intros ys. apply keeps_ret.
Qed.

End Keeps.

Section KeepsGen.

Variable Q : event -> Prop.

Lemma gen_keeps_next {A} (g : gen A) : gen_keeps Q g -> keeps Q (next g).
Proof. intros [nx H _]. exact H. Qed.

Lemma gen_keeps_rest {A} (g : gen A) (w w' : world) (x : A) (g' : gen A) :
  gen_keeps Q g -> next g w = (w', Ok (Some (x, g'))) -> gen_keeps Q g'.
Proof. intros [nx _ H]. apply H. Qed.

Lemma keeps_for_each {A} (g : gen A) (body : A -> M unit) :
  gen_keeps Q g -> (forall x, keeps Q (body x)) -> keeps Q (for_each g body).
Proof.
  intros Hg Hbody. induction Hg as [nx Hnx _ IH].
  intros w w' r Hrun. cbn [for_each] in Hrun.
  destruct (nx w) as [w1 [[[x g']|]|e]] eqn:E.
  - destruct (body x w1) as [w2 [[]|e]] eqn:Eb.
    + eapply extends_trans; [eapply Hnx, E|].
      eapply extends_trans; [eapply Hbody, Eb|].
      eapply IH; eassumption.
    + injection Hrun as <- <-.
      eapply extends_trans; [eapply Hnx, E|eapply Hbody, Eb].
  - injection Hrun as <- <-. eapply Hnx, E.
  - injection Hrun as <- <-. eapply Hnx, E.
Qed.

Lemma gen_keeps_exhausted {A} : gen_keeps Q (@exhausted A).
Proof.
  constructor.
  - apply keeps_ret.
  - intros w w' x g' H. discriminate.
Qed.

Lemma gen_keeps_find_candidates (funcs : list Z) :
  gen_keeps Q (find_candidates_from funcs).
Proof.
  induction funcs as [|a funcs IH]; cbn [find_candidates_from].
  - constructor.
    + intros w w' r [= <- <-]. apply extends_refl.
    + intros w w' x g' H. discriminate.
  - constructor.
    + intros w w' r Hrun.
      destruct (is_func_find_candidate (ida w) a) as [[|]|e].
      * injection Hrun as <- <-. apply extends_refl.
      * eapply gen_keeps_next; eassumption.
      * injection Hrun as <- <-. apply extends_refl.
    + intros w w' x g' Hrun.
      destruct (is_func_find_candidate (ida w) a) as [[|]|e].
      * injection Hrun as <- <- <-. exact IH.
      * eapply gen_keeps_rest; eassumption.
      * discriminate.
Qed.

Lemma gen_keeps_iter_func_find_candidates :
  gen_keeps Q iter_func_find_candidates.
Proof.
  constructor.
  - intros w w' r Hrun.
    eapply (gen_keeps_next _ (gen_keeps_find_candidates _)), Hrun.
  - intros w w' x g' Hrun.
    eapply (gen_keeps_rest _ _ _ _ _ (gen_keeps_find_candidates _)), Hrun.
Qed.

Lemma gen_keeps_blockify_from {A} (g : gen A) (n : nat) :
  gen_keeps Q g -> forall cur, gen_keeps Q (blockify_from g n cur).
Proof.
  intros Hg. induction Hg as [nx Hnx Hrest IH]. intros cur.
  cbn [blockify_from]. constructor.
  - intros w w' r Hrun.
    destruct (nx w) as [w1 [[[x g']|]|e]] eqn:E.
    + destruct (length (cur ++ [x]) =? n)%nat.
      * injection Hrun as <- <-. eapply Hnx, E.
      * eapply extends_trans; [eapply Hnx, E|].
        eapply gen_keeps_next; [|exact Hrun]. eapply IH, E.
    + destruct cur; injection Hrun as <- <-; eapply Hnx, E.
    + injection Hrun as <- <-. eapply Hnx, E.
  - intros w w' x g' Hrun.
    destruct (nx w) as [w1 [[[y g1]|]|e]] eqn:E.
    + destruct (length (cur ++ [y]) =? n)%nat.
      * injection Hrun as <- <- <-. eapply IH, E.
      * eapply gen_keeps_rest; [|exact Hrun]. eapply IH, E.
    + destruct cur; [discriminate|].
      injection Hrun as <- <- <-. apply gen_keeps_exhausted.
    + discriminate.
Qed.

End KeepsGen.

Section KeepsClient.

Variable Q : event -> Prop.
Variable fdb : DBEndpoint_t.

Lemma keeps_batch_similars (l : list Z) :
  (forall ev, is_exchange ev -> Q ev) -> keeps Q (_batch_similars fdb l).
Proof.
  intros HQ. unfold _batch_similars. apply keeps_bind.
  - apply keeps_for. intros a. apply keeps_bind; [apply keeps_reads|].
    intros d. apply keeps_send, HQ. exact I.
  - intros _. apply keeps_collect. intros a.
    apply keeps_bind; [|intros r; apply keeps_ret].
    apply keeps_response. intros r. apply HQ. exact I.
Qed.

Lemma keeps_apply_similars (similarity_cut : Z) (fs : Z * list similar) :
  keeps Q (apply_similars similarity_cut fs).
Proof.
  destruct fs as [a [|fsim rest]]; unfold apply_similars; cbn [apply_similars_with].
  - apply keeps_ret.
  - destruct (sim_grade fsim <? similarity_cut); [apply keeps_ret|].
    apply keeps_bind; [apply keeps_reads|]. intros old_name.
    apply keeps_bind; [apply keeps_MakeName|]. intros _.
    apply keeps_bind; [apply keeps_reads|]. intros c.
    apply keeps_set_func_comment.
Qed.

Lemma keeps_find_loop (similarity_cut : Z) (batch_size : nat) :
  (forall ev, is_exchange ev -> Q ev) ->
  keeps Q (for_each (blockify iter_func_find_candidates batch_size)
             (fun l_func_addr =>
                bsimilars ← _batch_similars fdb l_func_addr;
                for_ bsimilars (apply_similars similarity_cut))).
Proof.
  intros HQ. apply keeps_for_each.
  - apply gen_keeps_blockify_from, gen_keeps_iter_func_find_candidates.
  - intros l. apply keeps_bind; [apply keeps_batch_similars, HQ|].
    intros bs. apply keeps_for, keeps_apply_similars.
Qed.

Lemma keeps_commit_func (func_addr : Z) :
  (forall ev, adds_no_comment ev -> Q ev) -> keeps Q (commit_func fdb func_addr).
Proof.
  intros HQ. unfold commit_func.
  apply keeps_bind; [apply keeps_reads|]. intros candidate.
  destruct (negb candidate); [apply keeps_ret|].
  apply keeps_bind; [apply keeps_reads|]. intros func_name.
  intros w w' r Hrun. unfold mbind, M_bind, reads in Hrun.
  destruct (get_func_data (ida w) func_addr) as [d|e].
  - eapply (keeps_send Q); [|exact Hrun]. apply HQ. reflexivity.
  - injection Hrun as <- <-. apply extends_refl.
Qed.

Lemma keeps_clean_func (func_addr : Z) : keeps Q (clean_func func_addr).
Proof.
  unfold clean_func.
  apply keeps_bind; [apply keeps_reads|]. intros fcatalog.
  destruct (negb fcatalog); [apply keeps_ret|].
  apply keeps_bind; [apply keeps_MakeName|]. intros _.
  apply keeps_bind; [apply keeps_reads|]. intros c.
  apply keeps_set_func_comment.
Qed.

End KeepsClient.

Lemma batch_similars_exchange_witness :
  let fdb := Endpoint (FrameClient "127.0.0.1:1337") "test_db" in
  _batch_similars fdb [0x2000; 0x3000] Examples.w_ok =
    (with_wire Examples.w_ok
       [EvRequestSimilars (Examples.nops 0x80) 1;
        EvRequestSimilars (Examples.nops 0x80) 1;
        EvResponseSimilars [Examples.http_match];
        EvResponseSimilars [Examples.http_match]],
     Ok [(0x2000, [Examples.http_match]); (0x3000, [Examples.http_match])]).
Proof.
  intros fdb.
  destruct (batch_similars_exchange fdb Examples.w_ok [0x2000; 0x3000])
    as [Hrun _].
  apply (Hrun [Examples.nops 0x80; Examples.nops 0x80]
              [[Examples.http_match]; [Examples.http_match]]).
  - repeat constructor.
  - intros i Hi. reflexivity.
  - reflexivity.
  - intros i r Hi. destruct i as [|[|i]]; simpl in Hi.
    + injection Hi as <-. reflexivity.
    + injection Hi as <-. reflexivity.
    + discriminate.
Defined.

(** ** Applying the matches *)

(** C5, as the script has it: a function with no match is left as it is;
    otherwise only the first match counts, whatever follows it; below the
    similarity cut the function is left as it is; otherwise the function
    gets the catalog name, and the comment accessors are called so:
    [get_func_comment] on the renamed function, and [set_func_comment] on
    the comment that [add_comment_fcatalog] splices from what was read and
    the comment of the match, whatever the two accessors do.  As the
    script has them, they are stubs: nothing is stored, and the comment of
    the function stays what it was. *)
Theorem apply_similars_policy (similarity_cut func_addr : Z)
    (similars : list similar) (w : world) :
  apply_similars similarity_cut (func_addr, similars) w =
    apply_similars_with get_func_comment set_func_comment
      similarity_cut (func_addr, similars) w /\
  (similars = [] ->
   forall get_comment set_comment,
     apply_similars_with get_comment set_comment
       similarity_cut (func_addr, similars) w = (w, Ok tt)) /\
  (forall fsim rest,
     similars = fsim :: rest -> sim_grade fsim < similarity_cut ->
     forall get_comment set_comment,
       apply_similars_with get_comment set_comment
         similarity_cut (func_addr, similars) w = (w, Ok tt)) /\
  (forall fsim rest,
     similars = fsim :: rest -> similarity_cut <= sim_grade fsim ->
     let new_name := make_fcatalog_name (name fsim) (sim_grade fsim) func_addr in
     let renamed := MakeName func_addr new_name (ida w) in
     (forall get_comment set_comment,
        apply_similars_with get_comment set_comment
          similarity_cut (func_addr, similars) w =
          (with_ida w
             (set_comment func_addr
                (add_comment_fcatalog (get_comment renamed func_addr)
                                      (comment fsim))
                renamed),
           Ok tt)) /\
     exists w',
       apply_similars similarity_cut (func_addr, similars) w = (w', Ok tt) /\
       ida w' = renamed /\
       GetFunctionName (ida w') func_addr = new_name /\
       (forall a, a <> func_addr ->
                  GetFunctionName (ida w') a = GetFunctionName (ida w) a) /\
       get_func_comment (ida w') func_addr = get_func_comment (ida w) func_addr /\
       cmts (ida w') = cmts (ida w) /\
       wire w' = wire w /\ net w' = net w).
Proof.
  split; [reflexivity|].
  split; [intros -> get_comment set_comment; reflexivity|]. split.
  - intros fsim rest -> Hlow get_comment set_comment.
    cbn [apply_similars_with].
    destruct (Z.ltb_spec (sim_grade fsim) similarity_cut); [reflexivity|lia].
  - intros fsim rest -> Hhigh new_name renamed. split.
    + intros get_comment set_comment. cbn [apply_similars_with].
      destruct (Z.ltb_spec (sim_grade fsim) similarity_cut); [lia|].
      reflexivity.
    + unfold apply_similars; cbn [apply_similars_with].
      destruct (Z.ltb_spec (sim_grade fsim) similarity_cut); [lia|].
      eexists. split; [reflexivity|]. cbn.
      split; [reflexivity|]. split.
      { unfold GetFunctionName. cbn. rewrite lookup_insert_eq. reflexivity. }
      split.
      { intros a Ha. unfold GetFunctionName. cbn.
        rewrite lookup_insert_ne by congruence. reflexivity. }
      auto.
Qed.

Lemma apply_similars_policy_witness :
  apply_similars 8 (0x2000, []) Examples.w_ok = (Examples.w_ok, Ok tt) /\
  apply_similars 11 (0x2000, [Examples.http_match]) Examples.w_ok
    = (Examples.w_ok, Ok tt) /\
  (exists w',
     apply_similars 8 (0x2000, [Examples.http_match; Examples.http_match])
                    Examples.w_ok = (w', Ok tt) /\
     GetFunctionName (ida w') 0x2000 = "FCATALOG__10__httpParse__00002000" /\
     get_func_comment (ida w') 0x2000 = get_func_comment Examples.db_ok 0x2000 /\
     cmts (ida w') = cmts Examples.db_ok) /\
  cmts (ida (fst (apply_similars_with
                    Examples.read_comment Examples.store_comment
                    8 (0x1000, [Examples.http_match]) Examples.w_ok)))
    !! 0x1000
  = Some ("%%% parses HTTP" +:+ Py.NL +:+ "entry point").
Proof.
  refine (conj _ (conj _ (conj _ _))).
  - destruct (apply_similars_policy 8 0x2000 [] Examples.w_ok)
      as (-> & H & _).
    apply H. reflexivity.
  - destruct (apply_similars_policy 11 0x2000 [Examples.http_match] Examples.w_ok)
      as (-> & _ & H & _).
    apply (H Examples.http_match []); [reflexivity|simpl; lia].
  - destruct (apply_similars_policy 8 0x2000
                [Examples.http_match; Examples.http_match] Examples.w_ok)
      as (_ & _ & _ & H).
    destruct (H Examples.http_match [Examples.http_match])
      as (_ & w' & Hrun & _ & Hname & _ & Hget & Hcmts & _);
      [reflexivity|simpl; lia|].
    exists w'. split; [exact Hrun|]. split; [exact Hname|].
    split; [exact Hget|exact Hcmts].
  - destruct (apply_similars_policy 8 0x1000 [Examples.http_match] Examples.w_ok)
      as (_ & _ & _ & H).
    destruct (H Examples.http_match []) as (Hwith & _);
      [reflexivity|simpl; lia|].
    rewrite (Hwith Examples.read_comment Examples.store_comment).
    vm_compute. reflexivity.
Defined.

(** C5 as stated fails: after the rename of the function at 0x2000 by the
    match "httpParse" of grade 10, the spliced comment "%%% parses HTTP" is
    neither what [get_func_comment] reads nor in what IDA keeps. *)
Lemma apply_similars_comment_not_stored :
  let w' := fst (apply_similars 8 (0x2000, [Examples.http_match]) Examples.w_ok) in
  GetFunctionName (ida w') 0x2000 = "FCATALOG__10__httpParse__00002000" /\
  add_comment_fcatalog (get_func_comment Examples.db_ok 0x2000)
                       (comment Examples.http_match) = "%%% parses HTTP" /\
  get_func_comment (ida w') 0x2000 = "" /\
  get_func_comment (ida w') 0x2000 <>
    add_comment_fcatalog (get_func_comment Examples.db_ok 0x2000)
                         (comment Examples.http_match) /\
  cmts (ida w') !! 0x2000 = None.
Proof.
  cbv zeta. refine (conj _ (conj _ (conj _ (conj _ _)))).
  - vm_compute. reflexivity.
  - vm_compute. reflexivity.
  - reflexivity.
  - vm_compute. discriminate.
  - vm_compute. reflexivity.
Qed.

(** ** Whole operations *)

Section Operations.

Variable Q : event -> Prop.

Lemma keeps_emit (ev : event) : Q ev -> keeps Q (emit ev).
Proof. intros H w w' r [= <- <-]. apply extends_event, H. Qed.

Lemma keeps_TCPFrameClient (remote : string) :
  Q (EvConnect remote) -> keeps Q (TCPFrameClient remote).
Proof.
  intros HQ. apply keeps_bind; [|intros _; apply keeps_ret].
  apply keeps_send, HQ.
Qed.

Lemma keeps_DBEndpoint (frame_endpoint : TCPFrameClient_t) (db_name : string) :
  Q (EvChooseDb db_name) -> keeps Q (DBEndpoint frame_endpoint db_name).
Proof.
  intros HQ. apply keeps_bind; [|intros _; apply keeps_ret].
  apply keeps_send, HQ.
Qed.

Lemma keeps_for_Functions (body : Z -> M unit) :
  (forall a, keeps Q (body a)) -> keeps Q (for_Functions body).
Proof.
  intros Hbody w w' r Hrun. unfold for_Functions in Hrun.
  eapply keeps_for; eassumption.
Qed.

Lemma keeps_clean_idb : keeps Q clean_idb.
Proof. apply keeps_for_Functions, keeps_clean_func. Qed.

Lemma keeps_commit_funcs (self : FCatalogClient) :
  (forall ev, adds_no_comment ev -> Q ev) ->
  (forall remote, Q (EvConnect remote)) ->
  (forall db_name, Q (EvChooseDb db_name)) ->
  Q EvClose ->
  keeps Q (commit_funcs self).
Proof.
  intros Hadd Hconnect Hchoose Hclose. unfold commit_funcs.
  apply keeps_bind; [apply keeps_TCPFrameClient, Hconnect|]. intros fe.
  apply keeps_bind; [apply keeps_DBEndpoint, Hchoose|]. intros fdb.
  apply keeps_bind.
  - apply keeps_for_Functions. intros a. apply keeps_commit_func, Hadd.
  - intros _. apply keeps_emit, Hclose.
Qed.

Lemma keeps_find_similars (self : FCatalogClient) (cut : Z) (n : nat) :
  (forall ev, Q ev) -> keeps Q (find_similars self cut n).
Proof.
  intros HQ. unfold find_similars.
  apply keeps_bind; [apply keeps_TCPFrameClient, HQ|]. intros fe.
  apply keeps_bind; [apply keeps_DBEndpoint, HQ|]. intros fdb.
  apply keeps_bind; [apply keeps_find_loop; auto|].
  intros _. apply keeps_emit, HQ.
Qed.

End Operations.

Lemma added_comments_empty (tr : list event) :
  Forall (fun ev => adds_no_comment ev \/ added_comments [ev] = []) tr ->
  Forall (fun c => c = "") (added_comments tr).
Proof.
  induction 1 as [|ev tr Hev _ IH]; [constructor|].
  destruct ev; cbn [added_comments]; try exact IH.
  constructor; [|exact IH]. destruct Hev as [Hev|Hev]; [exact Hev|discriminate].
Qed.

(** C10: [get_func_comment] always returns the empty string and
    [set_func_comment] changes nothing; so [find_similars] and [clean_idb]
    leave the comment of every function as it was, in what IDA keeps and
    in what [get_func_comment] reads, and every function [commit_funcs]
    adds to the catalog goes with an empty comment. *)
Theorem comments_are_stubs :
  (forall db func_addr, get_func_comment db func_addr = "") /\
  (forall db func_addr comment, set_func_comment func_addr comment db = db) /\
  (forall self similarity_cut batch_size w func_addr,
     let w' := fst (find_similars self similarity_cut batch_size w) in
     cmts (ida w') = cmts (ida w) /\
     get_func_comment (ida w') func_addr = get_func_comment (ida w) func_addr) /\
  (forall w func_addr,
     let w' := fst (clean_idb w) in
     cmts (ida w') = cmts (ida w) /\
     get_func_comment (ida w') func_addr = get_func_comment (ida w) func_addr) /\
  (forall self w,
     exists tr,
       wire (fst (commit_funcs self w)) = wire w ++ tr /\
       Forall (fun func_comment => func_comment = "") (added_comments tr)).
Proof.
  split; [reflexivity|]. split; [reflexivity|]. split; [|split].
  - intros self cut n w a w'. split; [|reflexivity].
    destruct (find_similars self cut n w) as [w1 r] eqn:E.
    apply (keeps_find_similars (fun _ => True)) in E; [|auto].
    apply E.
  - intros w a w'. split; [|reflexivity].
    destruct (clean_idb w) as [w1 r] eqn:E.
    apply (keeps_clean_idb (fun _ => True)) in E. apply E.
  - intros self w.
    destruct (commit_funcs self w) as [w1 r] eqn:E.
    apply (keeps_commit_funcs
             (fun ev => adds_no_comment ev \/ added_comments [ev] = [])) in E;
      auto.
    destruct E as (_ & _ & tr & Htr & HQ). exists tr.
    split; [exact Htr|]. apply added_comments_empty, HQ.
Qed.

(** ** The session is closed at the end only *)

Section Closing.

Lemma closes_app (tr1 tr2 : list event) :
  closes (tr1 ++ tr2) = (closes tr1 + closes tr2)%nat.
Proof. unfold closes. rewrite List.filter_app, length_app. reflexivity. Qed.

Lemma closes_not_close (tr : list event) : Forall not_close tr -> closes tr = 0%nat.
Proof.
  unfold closes. induction 1 as [|ev tr Hev _ IH]; [reflexivity|].
  cbn [List.filter]. rewrite Hev. exact IH.
Qed.

Lemma extends_closes (w w' : world) :
  extends not_close w w' -> closes (wire w') = closes (wire w).
Proof.
  intros (_ & _ & tr & -> & Htr).
  rewrite closes_app, (closes_not_close tr Htr). lia.
Qed.

(** Open, work, close: [close] is reached only when nothing raised
    before it, and then it is the last thing on the connection. *)
Lemma open_work_close (self : FCatalogClient) (work : DBEndpoint_t -> M unit)
    (w w' : world) (r : result unit) :
  (forall fdb, keeps not_close (work fdb)) ->
  (frame_endpoint ← TCPFrameClient (_remote self);
   fdb ← DBEndpoint frame_endpoint (_db_name self);
   work fdb ;; close fdb) w = (w', r) ->
  closes (wire w') = (closes (wire w) + (if is_ok r then 1 else 0))%nat /\
  (is_ok r = true -> last (wire w') = Some EvClose).
Proof.
  intros Hwork Hrun.
  destruct (TCPFrameClient (_remote self) w) as [w1 [fe|e]] eqn:E1.
  - rewrite (bind_ok _ _ _ _ _ E1) in Hrun.
    apply (keeps_TCPFrameClient not_close) in E1; [|reflexivity].
    destruct (DBEndpoint fe (_db_name self) w1) as [w2 [fdb|e]] eqn:E2.
    + rewrite (bind_ok _ _ _ _ _ E2) in Hrun.
      apply (keeps_DBEndpoint not_close) in E2; [|reflexivity].
      destruct (work fdb w2) as [w3 [[]|e]] eqn:E3.
      * rewrite (bind_ok _ _ _ _ _ E3) in Hrun.
        apply Hwork in E3. injection Hrun as <- <-.
        cbn [wire with_wire is_ok]. rewrite closes_app, last_snoc.
        rewrite (extends_closes _ _ E3), (extends_closes _ _ E2),
          (extends_closes _ _ E1).
        split; reflexivity.
      * rewrite (bind_raise _ _ _ _ _ E3) in Hrun.
        apply Hwork in E3. injection Hrun as <- <-. cbn [is_ok].
        rewrite (extends_closes _ _ E3), (extends_closes _ _ E2),
          (extends_closes _ _ E1).
        split; [lia|discriminate].
    + rewrite (bind_raise _ _ _ _ _ E2) in Hrun.
      apply (keeps_DBEndpoint not_close) in E2; [|reflexivity].
      injection Hrun as <- <-. cbn [is_ok].
      rewrite (extends_closes _ _ E2), (extends_closes _ _ E1).
      split; [lia|discriminate].
  - rewrite (bind_raise _ _ _ _ _ E1) in Hrun.
    apply (keeps_TCPFrameClient not_close) in E1; [|reflexivity].
    injection Hrun as <- <-. cbn [is_ok].
    rewrite (extends_closes _ _ E1). split; [lia|discriminate].
Qed.

End Closing.

(** C3, as the script has it: a run of [commit_funcs] or [find_similars]
    that ends without an error has called [close] exactly once more than
    before, as the last thing on the connection; a run in which an error is
    raised has not called [close] at all: the error reaches the caller with
    the session left open. *)
Theorem close_on_completion_only (self : FCatalogClient) (w w' : world)
    (r : result unit) :
  commit_funcs self w = (w', r) \/
  (exists similarity_cut batch_size,
     find_similars self similarity_cut batch_size w = (w', r)) ->
  closes (wire w') = (closes (wire w) + (if is_ok r then 1 else 0))%nat /\
  (is_ok r = true -> last (wire w') = Some EvClose).
Proof.
  intros [Hrun|(cut & n & Hrun)].
  - eapply (open_work_close self (fun fdb => for_Functions (commit_func fdb)));
      [|exact Hrun].
    intros fdb. apply keeps_for_Functions. intros a.
    apply keeps_commit_func. intros []; try contradiction. reflexivity.
  - eapply (open_work_close self); [|exact Hrun].
    intros fdb. apply keeps_find_loop.
    intros []; try contradiction; reflexivity.
Qed.

Lemma close_on_completion_only_witness :
  (closes (wire (fst (commit_funcs Examples.client Examples.w_ok))) = 1%nat /\
   last (wire (fst (commit_funcs Examples.client Examples.w_ok))) = Some EvClose) /\
  (closes (wire (fst (find_similars Examples.client 8 20 Examples.w_ok))) = 1%nat /\
   last (wire (fst (find_similars Examples.client 8 20 Examples.w_ok)))
     = Some EvClose).
Proof.
  split.
  - destruct (close_on_completion_only Examples.client Examples.w_ok
                (fst (commit_funcs Examples.client Examples.w_ok)) (Ok tt))
      as [Hn Hlast].
    + left. vm_compute. reflexivity.
    + split; [exact Hn|apply Hlast; reflexivity].
  - destruct (close_on_completion_only Examples.client Examples.w_ok
                (fst (find_similars Examples.client 8 20 Examples.w_ok)) (Ok tt))
      as [Hn Hlast].
    + right. exists 8, 20%nat. vm_compute. reflexivity.
    + split; [exact Hn|apply Hlast; reflexivity].
Defined.

(** C3 as stated fails: [commit_funcs] on a database with a function whose
    end precedes its start, and [find_similars] on a connection that drops,
    raise with the session open and [close] never called. *)
Lemma error_leaves_session_open :
  (snd (commit_funcs Examples.client Examples.w_bad)
     = Raise (FCatalogClientError "Function 5000 has end lower than start") /\
   wire (fst (commit_funcs Examples.client Examples.w_bad))
     = [EvConnect "127.0.0.1:1337"; EvChooseDb "test_db";
        EvAddFunction "httpParse" "" (Examples.nops 0x80)] /\
   closes (wire (fst (commit_funcs Examples.client Examples.w_bad))) = 0%nat) /\
  (snd (find_similars Examples.client 8 20 Examples.w_drop)
     = Raise ConnectionError /\
   wire (fst (find_similars Examples.client 8 20 Examples.w_drop))
     = [EvConnect "127.0.0.1:1337"; EvChooseDb "test_db";
        EvRequestSimilars (Examples.nops 0x80) 1;
        EvRequestSimilars (Examples.nops 0x80) 1] /\
   closes (wire (fst (find_similars Examples.client 8 20 Examples.w_drop)))
     = 0%nat).
Proof. vm_compute. repeat split. Qed.

(** * Further properties of the script *)

(** ** Lengths, data and the selection tests *)

(** X1: the length test is inclusive at [MIN_FUNC_LENGTH]: it answers
    [True] exactly for an unchunked function of at least 0x60 bytes,
    [False] exactly for an unchunked function of 0 to 0x5f bytes, and
    raises exactly when the function is chunked or ends before it
    starts. *)
Theorem is_func_long_enough_boundary (db : idb) (func_addr : Z) :
  (is_func_long_enough db func_addr = Ok true <->
   is_func_chunked db func_addr = false /\
   func_addr + 0x60 <= func_end db func_addr) /\
  (is_func_long_enough db func_addr = Ok false <->
   is_func_chunked db func_addr = false /\
   func_addr <= func_end db func_addr < func_addr + 0x60) /\
  (is_ok (is_func_long_enough db func_addr) = false <->
   is_func_chunked db func_addr = true \/ func_end db func_addr < func_addr).
Proof.
  unfold is_func_long_enough, get_func_length, MIN_FUNC_LENGTH.
  destruct (is_func_chunked db func_addr).
  - simpl. repeat split; try discriminate; try tauto; intros [? _]; discriminate.
  - destruct (Z.ltb_spec (func_end db func_addr) func_addr).
    + simpl. repeat split; try discriminate; try tauto; intros [_ ?]; lia.
    + destruct (Z.ltb_spec (func_end db func_addr - func_addr) 96); simpl;
        repeat split; try discriminate; try lia; try tauto;
        try (intros [_ ?]; lia); try (intros [?|?]; [discriminate|lia]).
Qed.

(** X2: [get_func_data] returns bytes only for an unchunked function whose
    end does not precede its start, and then they are what IDA gives for the
    range from the start to the end; in every other case it raises the
    client's error. *)
Theorem get_func_data_cases (db : idb) (func_addr : Z) :
  (forall func_data,
     get_func_data db func_addr = Ok func_data <->
     is_func_chunked db func_addr = false /\
     func_addr <= func_end db func_addr /\
     bytes_at db func_addr (func_end db func_addr - func_addr) = Some func_data) /\
  (is_ok (get_func_data db func_addr) = false ->
   exists msg, get_func_data db func_addr = Raise (FCatalogClientError msg)).
Proof.
  unfold get_func_data, get_func_length.
  destruct (is_func_chunked db func_addr).
  - split; [|eauto]. intros d. split; [discriminate|]. intros [? _]. discriminate.
  - destruct (Z.ltb_spec (func_end db func_addr) func_addr).
    + split; [|eauto]. intros d. split; [discriminate|]. intros (_ & ? & _). lia.
    + destruct (bytes_at db func_addr (func_end db func_addr - func_addr)) as [d0|].
      * split; [|discriminate]. intros d. split.
        -- intros [= <-]. auto.
        -- intros (_ & _ & [= <-]). reflexivity.
      * split; [|eauto]. intros d. split; [discriminate|].
        intros (_ & _ & ?). discriminate.
Qed.

Lemma get_func_data_cases_witness :
  exists msg,
    get_func_data Examples.db_bad 0x5000 = Raise (FCatalogClientError msg).
Proof.
  apply (get_func_data_cases Examples.db_bad 0x5000). reflexivity.
Defined.

(** X3: [is_func_commit_candidate] answers [True] exactly for an unchunked,
    named function of at least 0x60 bytes; it raises exactly for an
    unchunked, named function that ends before it starts, so neither a
    chunked nor an unnamed function ever stops the selection. *)
Theorem is_func_commit_candidate_cases (db : idb) (func_addr : Z) :
  (is_func_commit_candidate db func_addr = Ok true <->
   is_func_chunked db func_addr = false /\
   is_func_named db func_addr = true /\
   func_addr + 0x60 <= func_end db func_addr) /\
  (is_ok (is_func_commit_candidate db func_addr) = false <->
   is_func_chunked db func_addr = false /\
   is_func_named db func_addr = true /\
   func_end db func_addr < func_addr).
Proof.
  unfold is_func_commit_candidate, is_func_long_enough, get_func_length,
    MIN_FUNC_LENGTH.
  destruct (is_func_chunked db func_addr).
  - simpl. repeat split; try discriminate; intros [? _]; discriminate.
  - destruct (is_func_named db func_addr); simpl.
    + destruct (Z.ltb_spec (func_end db func_addr) func_addr).
      * simpl. repeat split; try discriminate; try assumption.
        intros (_ & _ & ?). lia.
      * destruct (Z.ltb_spec (func_end db func_addr - func_addr) 96); simpl;
          repeat split; try discriminate; try lia;
          intros (_ & _ & ?); lia.
    + repeat split; try discriminate; intros (_ & ? & _); discriminate.
Qed.

(** X4: [is_func_find_candidate] answers [True] exactly for an unchunked
    function that is not named and has at least 0x60 bytes; it raises
    exactly for an unchunked, unnamed function that ends before it
    starts. *)
Theorem is_func_find_candidate_cases (db : idb) (func_addr : Z) :
  (is_func_find_candidate db func_addr = Ok true <->
   is_func_chunked db func_addr = false /\
   is_func_named db func_addr = false /\
   func_addr + 0x60 <= func_end db func_addr) /\
  (is_ok (is_func_find_candidate db func_addr) = false <->
   is_func_chunked db func_addr = false /\
   is_func_named db func_addr = false /\
   func_end db func_addr < func_addr).
Proof.
  unfold is_func_find_candidate, is_func_long_enough, get_func_length,
    MIN_FUNC_LENGTH.
  destruct (is_func_chunked db func_addr).
  - simpl. repeat split; try discriminate; intros [? _]; discriminate.
  - destruct (is_func_named db func_addr); simpl.
    + repeat split; try discriminate; intros (_ & ? & _); discriminate.
    + destruct (Z.ltb_spec (func_end db func_addr) func_addr).
      * simpl. repeat split; try discriminate; try assumption.
        intros (_ & _ & ?). lia.
      * destruct (Z.ltb_spec (func_end db func_addr - func_addr) 96); simpl;
          repeat split; try discriminate; try lia;
          intros (_ & _ & ?); lia.
Qed.

(** ** Names *)

Section NameFacts.

Lemma prefix_inv (p s : string) :
  String.prefix p s = true -> exists post, s = p +:+ post.
Proof.
  revert s. induction p as [|c p IH]; intros s H.
  - exists s. reflexivity.
  - destruct s as [|c' s]; [discriminate|]. simpl in H.
    destruct (ascii_dec c c') as [<-|]; [|discriminate].
    destruct (IH s H) as [post ->]. exists post. reflexivity.
Qed.

Lemma contains_inv (sub s : string) :
  Py.contains sub s = true -> exists pre post, s = pre +:+ sub +:+ post.
Proof.
  induction s as [|c s IH]; cbn [Py.contains]; intros H.
  - rewrite orb_false_r in H. apply prefix_inv in H as [post ->].
    exists "", post. reflexivity.
  - apply orb_true_iff in H as [H|H].
    + apply prefix_inv in H as [post ->]. exists "", post. reflexivity.
    + destruct (IH H) as (pre & post & ->).
      exists (String c pre), post. reflexivity.
Qed.

Lemma lower_append_inv (s p q : string) :
  Py.lower s = p +:+ q ->
  exists s1 s2, s = s1 +:+ s2 /\ Py.lower s1 = p /\ Py.lower s2 = q.
Proof.
  revert s. induction p as [|c p IH]; intros s H.
  - exists "", s. auto.
  - destruct s as [|c' s]; [discriminate|].
    rewrite append_cons in H. cbn [Py.lower] in H. injection H as Hc H.
    destruct (IH s H) as (s1 & s2 & -> & <- & <-).
    exists (String c' s1), s2. rewrite <- Hc. auto.
Qed.

(** [tok in s.lower()] says that a part of [s] reads [tok] in lower
    case. *)
Lemma contains_lower_iff (tok s : string) :
  Py.contains tok (Py.lower s) = true <->
  exists pre part post, s = pre +:+ part +:+ post /\ Py.lower part = tok.
Proof.
  split.
  - intros H. apply contains_inv in H as (p & q & H).
    apply lower_append_inv in H as (pre & rest & -> & _ & H).
    apply lower_append_inv in H as (part & post & -> & H & _).
    exists pre, part, post. auto.
  - intros (pre & part & post & -> & H). apply contains_lower, H.
Qed.

End NameFacts.

(** X5: [is_func_named] answers [True] exactly for a name that does not
    start with "sub_" (as written, in lower case), does not start with
    [FCATALOG__], and has no part that reads "_maybe", "maybe_",
    "_related" or "related_" in lower case. *)
Theorem is_func_named_exactly (db : idb) (func_addr : Z) :
  is_func_named db func_addr = true <->
  Py.startswith (GetFunctionName db func_addr) "sub_" = false /\
  Py.startswith (GetFunctionName db func_addr) FCATALOG_FUNC_NAME_PREFIX = false /\
  (forall pre part post,
     GetFunctionName db func_addr = pre +:+ part +:+ post ->
     Py.lower part <> "_maybe" /\ Py.lower part <> "maybe_" /\
     Py.lower part <> "_related" /\ Py.lower part <> "related_").
Proof.
  unfold is_func_named, is_func_fcatalog.
  set (func_name := GetFunctionName db func_addr).
  assert (Htok : forall tok,
             Py.contains tok (Py.lower func_name) = false <->
             forall pre part post,
               func_name = pre +:+ part +:+ post -> Py.lower part <> tok).
  { intros tok. split.
    - intros H pre part post Hn Hp.
      assert (Py.contains tok (Py.lower func_name) = true)
        by (apply contains_lower_iff; eauto).
      congruence.
    - intros H. destruct (Py.contains tok (Py.lower func_name)) eqn:E;
        [|reflexivity].
      apply contains_lower_iff in E as (pre & part & post & Hn & Hp).
      exfalso. exact (H pre part post Hn Hp). }
  split.
  - intros H.
    destruct (Py.startswith func_name "sub_"); [discriminate|].
    destruct (Py.contains "_maybe" (Py.lower func_name)) eqn:E1;
      [discriminate|].
    destruct (Py.contains "maybe_" (Py.lower func_name)) eqn:E2;
      [discriminate|].
    destruct (Py.contains "_related" (Py.lower func_name)) eqn:E3;
      [discriminate|].
    destruct (Py.contains "related_" (Py.lower func_name)) eqn:E4;
      [discriminate|].
    destruct (Py.startswith func_name FCATALOG_FUNC_NAME_PREFIX);
      [discriminate|].
    split; [reflexivity|]. split; [reflexivity|].
    intros pre part post Hn.
    pose proof (proj1 (Htok _) E1 pre part post Hn).
    pose proof (proj1 (Htok _) E2 pre part post Hn).
    pose proof (proj1 (Htok _) E3 pre part post Hn).
    pose proof (proj1 (Htok _) E4 pre part post Hn).
    auto.
  - intros (Hsub & Hcat & Hparts). rewrite Hsub, Hcat.
    assert (E : forall tok, (forall pre part post,
                 func_name = pre +:+ part +:+ post -> Py.lower part <> tok) ->
               Py.contains tok (Py.lower func_name) = false)
      by (intros tok; apply Htok).
    rewrite !E; [reflexivity| | | |];
      intros pre part post Hn; apply (Hparts pre part post Hn).
Qed.

Section RenameFacts.

Lemma make_fcatalog_name_prefix (func_name : string) (sim_grade func_addr : Z) :
  Py.startswith (make_fcatalog_name func_name sim_grade func_addr)
                FCATALOG_FUNC_NAME_PREFIX = true.
Proof.
  unfold make_fcatalog_name, Py.join. cbn [String.concat].
  apply startswith_append.
Qed.

(** The name tests look at the name only. *)
Lemma is_func_named_by_name (db db' : idb) (a b : Z) :
  GetFunctionName db a = GetFunctionName db' b ->
  is_func_named db a = is_func_named db' b.
Proof.
  intros H. unfold is_func_named, is_func_fcatalog. rewrite H. reflexivity.
Qed.

Lemma GetFunctionName_MakeName (db : idb) (a b : Z) (new_name : string) :
  GetFunctionName (MakeName a new_name db) b =
    if Z.eq_dec a b then new_name else GetFunctionName db b.
Proof.
  unfold GetFunctionName, MakeName. cbn [names].
  destruct (Z.eq_dec a b) as [<-|Hne].
  - rewrite lookup_insert_eq. reflexivity.
  - rewrite lookup_insert_ne by exact Hne. reflexivity.
Qed.

Lemma is_func_find_candidate_by_name (db db' : idb) (a : Z) :
  tails db' = tails db -> func_end db' = func_end db ->
  is_func_named db' a = is_func_named db a ->
  is_func_find_candidate db' a = is_func_find_candidate db a.
Proof.
  intros Ht He Hn.
  unfold is_func_find_candidate, is_func_long_enough, get_func_length,
    is_func_chunked.
  rewrite Ht, He, Hn. reflexivity.
Qed.

(** What [apply_similars] leaves in IDA. *)
Lemma apply_similars_ida (similarity_cut func_addr : Z)
    (similars : list similar) (w : world) :
  ida (fst (apply_similars similarity_cut (func_addr, similars) w)) =
    match similars with
    | [] => ida w
    | fsim :: _ =>
        if sim_grade fsim <? similarity_cut then ida w
        else MakeName func_addr
               (make_fcatalog_name (name fsim) (sim_grade fsim) func_addr)
               (ida w)
    end.
Proof.
  destruct similars as [|fsim rest]; [reflexivity|].
  unfold apply_similars; cbn [apply_similars_with]. destruct (sim_grade fsim <? similarity_cut); reflexivity.
Qed.

End RenameFacts.

(** X6: a function renamed by [find_similars] is recognised by
    [is_func_fcatalog], so [clean_idb] will find it, and it is never a
    commit candidate afterwards, whatever the match's name, grade and the
    address are. *)
Theorem renamed_is_fcatalog (similarity_cut func_addr : Z) (fsim : similar)
    (rest : list similar) (w : world) :
  similarity_cut <= sim_grade fsim ->
  let db' := ida (fst (apply_similars similarity_cut
                         (func_addr, fsim :: rest) w)) in
  is_func_fcatalog db' func_addr = true /\
  is_func_named db' func_addr = false /\
  is_func_commit_candidate db' func_addr = Ok false.
Proof.
  intros Hcut db'.
  assert (Hcat : is_func_fcatalog db' func_addr = true).
  { unfold db', is_func_fcatalog. rewrite apply_similars_ida.
    destruct (Z.ltb_spec (sim_grade fsim) similarity_cut); [lia|].
    rewrite GetFunctionName_MakeName.
    destruct (Z.eq_dec func_addr func_addr); [|congruence].
    apply make_fcatalog_name_prefix. }
  assert (Hn : is_func_named db' func_addr = false)
    by (apply fcatalog_not_named, Hcat).
  split; [exact Hcat|]. split; [exact Hn|].
  unfold is_func_commit_candidate. rewrite Hn.
  destruct (is_func_chunked db' func_addr); reflexivity.
Qed.

Lemma renamed_is_fcatalog_witness :
  let db' := ida (fst (apply_similars 8 (0x2000, [Examples.http_match])
                         Examples.w_ok)) in
  is_func_fcatalog db' 0x2000 = true /\
  is_func_named db' 0x2000 = false /\
  is_func_commit_candidate db' 0x2000 = Ok false.
Proof.
  apply (renamed_is_fcatalog 8 0x2000 Examples.http_match [] Examples.w_ok).
  simpl. lia.
Defined.

(** X7: the address enters the catalog name by its lower 32 bits only:
    addresses that differ by a multiple of 2^32 give the same name. *)
Theorem make_fcatalog_name_mod_2_32 (func_name : string)
    (sim_grade func_addr k : Z) :
  make_fcatalog_name func_name sim_grade (func_addr + k * 2 ^ 32) =
  make_fcatalog_name func_name sim_grade func_addr.
Proof.
  unfold make_fcatalog_name.
  change 0xffffffff with (Z.ones 32).
  rewrite !Z.land_ones by lia. rewrite Z.mod_add by lia. reflexivity.
Qed.

(** X8: applying the matches of a function that is not named changes no
    answer of [is_func_find_candidate], for that function or any other: a
    renamed function stays a find candidate when it was one, so the
    candidates met later in the same run are those of the start. *)
Theorem apply_similars_keeps_find_candidates (similarity_cut func_addr : Z)
    (similars : list similar) (w : world) (a : Z) :
  is_func_named (ida w) func_addr = false ->
  is_func_find_candidate
    (ida (fst (apply_similars similarity_cut (func_addr, similars) w))) a
  = is_func_find_candidate (ida w) a.
Proof.
  intros Hn. rewrite apply_similars_ida.
  destruct similars as [|fsim rest]; [reflexivity|].
  destruct (sim_grade fsim <? similarity_cut); [reflexivity|].
  apply is_func_find_candidate_by_name; [reflexivity|reflexivity|].
  destruct (Z.eq_dec func_addr a) as [<-|Hne].
  - rewrite Hn. apply fcatalog_not_named.
    unfold is_func_fcatalog. rewrite GetFunctionName_MakeName.
    destruct (Z.eq_dec func_addr func_addr); [|congruence].
    apply make_fcatalog_name_prefix.
  - apply is_func_named_by_name. rewrite GetFunctionName_MakeName.
    destruct (Z.eq_dec func_addr a); [congruence|reflexivity].
Qed.

Lemma apply_similars_keeps_find_candidates_witness :
  is_func_find_candidate
    (ida (fst (apply_similars 8 (0x2000, [Examples.http_match]) Examples.w_ok)))
    0x2000
  = is_func_find_candidate Examples.db_ok 0x2000.
Proof.
  apply (apply_similars_keeps_find_candidates
           8 0x2000 [Examples.http_match] Examples.w_ok 0x2000).
  reflexivity.
Defined.

(** ** Comments *)

Section CommentFacts.

Lemma Forall_removelast {A} (P : A -> Prop) (l : list A) :
  Forall P l -> Forall P (removelast l).
Proof.
  induction 1 as [|x l Hx Hl IH]; [constructor|].
  cbn [removelast]. destruct l; [constructor|].
  constructor; assumption.
Qed.

Lemma Forall_filter_keeps {A} (P : A -> Prop) (f : A -> bool) (l : list A) :
  Forall P l -> Forall P (List.filter f l).
Proof.
  induction 1 as [|x l Hx Hl IH]; [constructor|].
  cbn [List.filter]. destruct (f x); [constructor|]; assumption.
Qed.

Lemma Forall_filter_true {A} (f : A -> bool) (l : list A) :
  Forall (fun x => f x = true) (List.filter f l).
Proof.
  induction l as [|x l IH]; [constructor|].
  cbn [List.filter]. destruct (f x) eqn:E; [constructor|]; assumption.
Qed.

Lemma ends_empty_app_r (l1 l2 : list string) :
  l2 <> [] -> ends_empty (l1 ++ l2) = ends_empty l2.
Proof.
  intros H. unfold ends_empty. rewrite last_app.
  destruct (last l2) eqn:E; [reflexivity|].
  apply last_None in E. contradiction.
Qed.

(** The lines of what [add_comment_fcatalog] returns. *)
Lemma splitlines_add_comment_any (C K : string) :
  Py.splitlines (add_comment_fcatalog C K) =
    map marked (Py.splitlines K) ++
    (if ends_empty (Py.splitlines C) then removelast (Py.splitlines C)
     else Py.splitlines C).
Proof.
  unfold add_comment_fcatalog. fold marked.
  rewrite splitlines_join.
  - destruct (Py.splitlines C) as [|c Cl] eqn:E.
    + change (ends_empty (@nil string)) with false. cbv iota.
      rewrite !app_nil_r, ends_empty_marked. reflexivity.
    + rewrite ends_empty_app_r by discriminate.
      destruct (ends_empty (c :: Cl)); [|reflexivity].
      apply removelast_app. discriminate.
  - apply Forall_app. split; [|apply splitlines_lines].
    apply Forall_forall. intros x Hx.
    apply list_elem_of_In, in_map_iff in Hx as (ln & <- & Hln).
    apply marked_one_line.
    pose proof (splitlines_lines K) as HK.
    rewrite Forall_forall in HK. apply HK, list_elem_of_In, Hln.
Qed.

End CommentFacts.

(** X9: the lines of [add_comment_fcatalog(C, K)] are the lines of [K],
    each behind "%%% ", followed by the lines of [C]; only an empty last
    line of [C] is not there any more. *)
Theorem add_comment_fcatalog_lines (C K : string) :
  Py.splitlines (add_comment_fcatalog C K) =
    map (fun ln => "%%% " +:+ ln) (Py.splitlines K) ++
    (if ends_empty (Py.splitlines C) then removelast (Py.splitlines C)
     else Py.splitlines C).
Proof. apply splitlines_add_comment_any. Qed.

(** X10: what [strip_comment_fcatalog] returns after
    [add_comment_fcatalog(C, K)] is made of the lines of [C] alone, those
    that do not start with the marker: nothing of [K] is left, whatever
    [K] is. *)
Theorem add_then_strip_no_residue (C K : string) :
  strip_comment_fcatalog (add_comment_fcatalog C K) =
    Py.join Py.NL
      (List.filter unmarked
         (if ends_empty (Py.splitlines C) then removelast (Py.splitlines C)
          else Py.splitlines C)).
Proof.
  unfold strip_comment_fcatalog. rewrite splitlines_add_comment_any.
  fold unmarked. rewrite List.filter_app.
  unfold unmarked at 1. rewrite filter_marked. reflexivity.
Qed.

(** X11: no line of what [strip_comment_fcatalog] returns starts with the
    marker. *)
Theorem strip_comment_fcatalog_unmarked (C : string) :
  Forall (fun ln => Py.startswith ln FCATALOG_COMMENT_PREFIX = false)
         (Py.splitlines (strip_comment_fcatalog C)).
Proof.
  unfold strip_comment_fcatalog. fold unmarked.
  rewrite splitlines_join
    by (apply Forall_filter_keeps, splitlines_lines).
  assert (H : Forall (fun ln => Py.startswith ln FCATALOG_COMMENT_PREFIX = false)
                     (List.filter unmarked (Py.splitlines C))).
  { eapply Forall_impl; [apply Forall_filter_true|].
    intros ln Hln. apply negb_true_iff in Hln. exact Hln. }
  destruct (ends_empty _); [apply Forall_removelast|]; exact H.
Qed.

(** ** Cleaning *)

Section CleanFacts.

Lemma same_but_names_refl (db : idb) : same_but_names db db.
Proof. repeat split. Qed.

Lemma same_but_names_trans (db1 db2 db3 : idb) :
  same_but_names db1 db2 -> same_but_names db2 db3 -> same_but_names db1 db3.
Proof.
  intros (H1 & H2 & H3 & H4 & H5) (G1 & G2 & G3 & G4 & G5).
  repeat split; congruence.
Qed.

Lemma same_but_names_MakeName (db : idb) (a : Z) (new_name : string) :
  same_but_names db (MakeName a new_name db).
Proof. repeat split. Qed.

Lemma is_func_fcatalog_by_name (db db' : idb) (a b : Z) :
  GetFunctionName db a = GetFunctionName db' b ->
  is_func_fcatalog db a = is_func_fcatalog db' b.
Proof. intros H. unfold is_func_fcatalog. rewrite H. reflexivity. Qed.

Lemma clean_func_run (func_addr : Z) (w : world) :
  clean_func func_addr w =
    (with_ida w (if is_func_fcatalog (ida w) func_addr
                 then MakeName func_addr "" (ida w) else ida w), Ok tt).
Proof.
  unfold clean_func, mbind, M_bind, reads. cbn.
  destruct (is_func_fcatalog (ida w) func_addr); cbn; [reflexivity|].
  destruct w; reflexivity.
Qed.

Lemma for_clean_func (funcs : list Z) :
  forall w,
    exists db',
      for_ funcs clean_func w = (with_ida w db', Ok tt) /\
      same_but_names (ida w) db' /\
      forall a,
        GetFunctionName db' a =
          if existsb (Z.eqb a) funcs && is_func_fcatalog (ida w) a then ""
          else GetFunctionName (ida w) a.
Proof.
  induction funcs as [|a0 funcs IH]; intros w.
  - exists (ida w). split; [destruct w; reflexivity|].
    split; [apply same_but_names_refl|reflexivity].
  - cbn [for_]. erewrite bind_ok by apply clean_func_run.
    destruct (IH (with_ida w (if is_func_fcatalog (ida w) a0
                              then MakeName a0 "" (ida w) else ida w)))
      as (db' & Hrun & Hsame & Hnames).
    exists db'. split; [exact Hrun|]. cbn [ida with_ida] in Hsame, Hnames.
    split.
    { eapply same_but_names_trans; [|exact Hsame].
      destruct (is_func_fcatalog (ida w) a0);
        [apply same_but_names_MakeName|apply same_but_names_refl]. }
    intros a. rewrite Hnames. cbn [existsb].
    destruct (Z.eqb_spec a a0) as [->|Hne].
    + destruct (is_func_fcatalog (ida w) a0) eqn:Hcat; cbn [orb andb].
      * unfold is_func_fcatalog at 1. rewrite !GetFunctionName_MakeName.
        destruct (Z.eq_dec a0 a0); [|congruence].
        change (Py.startswith "" FCATALOG_FUNC_NAME_PREFIX) with false.
        rewrite andb_false_r. reflexivity.
      * rewrite Hcat, andb_false_r. reflexivity.
    + cbn [orb].
      assert (Hn : GetFunctionName
                     (if is_func_fcatalog (ida w) a0
                      then MakeName a0 "" (ida w) else ida w) a
                   = GetFunctionName (ida w) a).
      { destruct (is_func_fcatalog (ida w) a0); [|reflexivity].
        rewrite GetFunctionName_MakeName.
        destruct (Z.eq_dec a0 a); [congruence|reflexivity]. }
      rewrite Hn, (is_func_fcatalog_by_name _ (ida w) a a Hn). reflexivity.
Qed.

Lemma for_clean_func_nothing (funcs : list Z) (w : world) :
  Forall (fun a => is_func_fcatalog (ida w) a = false) funcs ->
  for_ funcs clean_func w = (w, Ok tt).
Proof.
  induction 1 as [|a funcs Ha _ IH]; [reflexivity|].
  cbn [for_]. erewrite bind_ok by apply clean_func_run.
  rewrite Ha. replace (with_ida w (ida w)) with w by (destruct w; reflexivity).
  exact IH.
Qed.

End CleanFacts.

(** X12: [clean_idb] never raises and never touches the connection; it
    sets to the empty name every function of the database that bears a
    catalog name, and leaves every other name, and everything else in the
    database, as it was. *)
Theorem clean_idb_clears_catalog_names (w : world) :
  exists db',
    clean_idb w = (with_ida w db', Ok tt) /\
    same_but_names (ida w) db' /\
    forall a,
      GetFunctionName db' a =
        if existsb (Z.eqb a) (Functions (ida w)) && is_func_fcatalog (ida w) a
        then "" else GetFunctionName (ida w) a.
Proof. apply for_clean_func. Qed.

(** X13: after [clean_idb] no function of the database bears a catalog
    name, and a second [clean_idb] changes nothing. *)
Theorem clean_idb_twice (w : world) :
  let w' := fst (clean_idb w) in
  Forall (fun a => is_func_fcatalog (ida w') a = false) (Functions (ida w')) /\
  clean_idb w' = (w', Ok tt).
Proof.
  intros w'.
  destruct (for_clean_func (Functions (ida w)) w) as (db' & Hrun & Hsame & Hn).
  assert (Hw' : w' = with_ida w db')
    by (unfold w', clean_idb, for_Functions; rewrite Hrun; reflexivity).
  assert (Hclean : Forall (fun a => is_func_fcatalog (ida w') a = false)
                          (Functions (ida w'))).
  { rewrite Hw'. cbn [ida with_ida]. destruct Hsame as (-> & _).
    apply Forall_forall. intros a Ha. apply list_elem_of_In in Ha.
    unfold is_func_fcatalog at 1. rewrite Hn.
    assert (Hin : existsb (Z.eqb a) (Functions (ida w)) = true).
    { apply existsb_exists. exists a. split; [exact Ha|apply Z.eqb_refl]. }
    rewrite Hin. cbn [andb].
    destruct (is_func_fcatalog (ida w) a) eqn:Hcat; [reflexivity|exact Hcat]. }
  split; [exact Hclean|].
  unfold clean_idb, for_Functions. apply for_clean_func_nothing, Hclean.
Qed.

(** ** Relations kept by the loops *)

Section Relates.

Variable R : world -> world -> Prop.
Hypothesis R_refl : forall w, R w w.
Hypothesis R_trans : forall w1 w2 w3, R w1 w2 -> R w2 w3 -> R w1 w3.
Hypothesis R_wire : forall w tr, R w (with_wire w tr).

Lemma relates_ret {A} (a : A) : relates R (mret a : M A).
Proof. intros w w' r [= <- <-]. apply R_refl. Qed.

Lemma relates_bind {A B} (m : M A) (f : A -> M B) :
  relates R m -> (forall a, relates R (f a)) -> relates R (m ≫= f).
Proof.
  intros Hm Hf w w' r Hrun. unfold mbind, M_bind in Hrun.
  destruct (m w) as [w1 [a|e]] eqn:E.
  - eapply R_trans; [eapply Hm, E|eapply Hf, Hrun].
  - injection Hrun as <- <-. eapply Hm, E.
Qed.

Lemma relates_reads {A} (f : idb -> result A) : relates R (reads f).
Proof. intros w w' r [= <- <-]. apply R_refl. Qed.

Lemma relates_emit (ev : event) : relates R (emit ev).
Proof. intros w w' r [= <- <-]. apply R_wire. Qed.

Lemma relates_send (ev : event) : relates R (send ev).
Proof.
  intros w w' r Hrun. unfold send in Hrun.
  destruct (fails (net w) (length (wire w))).
  - injection Hrun as <- <-. apply R_refl.
  - eapply relates_emit, Hrun.
Qed.

Lemma relates_response (fdb : DBEndpoint_t) : relates R (response_similars fdb).
Proof.
  intros w w' r Hrun. unfold response_similars in Hrun.
  destruct (answers (net w) (length (wire w))); injection Hrun as <- <-.
  - apply R_wire.
  - apply R_refl.
Qed.

Lemma relates_for {A} (l : list A) (body : A -> M unit) :
  (forall x, relates R (body x)) -> relates R (for_ l body).
Proof.
  intros Hbody. induction l as [|x l IH]; cbn [for_].
  - apply relates_ret.
  - apply relates_bind; auto.
Qed.

Lemma relates_collect {A B} (l : list A) (body : A -> M B) :
  (forall x, relates R (body x)) -> relates R (collect l body).
Proof.
  intros Hbody. induction l as [|x l IH]; cbn [collect].
  - apply relates_ret.
  - apply relates_bind; [auto|]. intros y.
    apply relates_bind; [auto|]. intros ys. apply relates_ret.
Qed.

Lemma relates_for_Functions (body : Z -> M unit) :
  (forall a, relates R (body a)) -> relates R (for_Functions body).
Proof.
  intros Hbody w w' r Hrun. unfold for_Functions in Hrun.
  eapply relates_for; eassumption.
Qed.

Lemma relates_TCPFrameClient (remote : string) : relates R (TCPFrameClient remote).
Proof.
  apply relates_bind; [apply relates_send|intros _; apply relates_ret].
Qed.

Lemma relates_DBEndpoint (frame_endpoint : TCPFrameClient_t) (db_name : string) :
  relates R (DBEndpoint frame_endpoint db_name).
Proof.
  apply relates_bind; [apply relates_send|intros _; apply relates_ret].
Qed.

Lemma relates_batch_similars (fdb : DBEndpoint_t) (l : list Z) :
  relates R (_batch_similars fdb l).
Proof.
  unfold _batch_similars. apply relates_bind.
  - apply relates_for. intros a. apply relates_bind; [apply relates_reads|].
    intros d. apply relates_send.
  - intros _. apply relates_collect. intros a.
    apply relates_bind; [apply relates_response|intros r; apply relates_ret].
Qed.

Lemma relates_commit_funcs (self : FCatalogClient) :
  relates R (commit_funcs self).
Proof.
  unfold commit_funcs.
  apply relates_bind; [apply relates_TCPFrameClient|]. intros fe.
  apply relates_bind; [apply relates_DBEndpoint|]. intros fdb.
  apply relates_bind; [|intros _; apply relates_emit].
  apply relates_for_Functions. intros a. unfold commit_func.
  apply relates_bind; [apply relates_reads|]. intros candidate.
  destruct (negb candidate); [apply relates_ret|].
  apply relates_bind; [apply relates_reads|]. intros func_name.
  apply relates_bind; [apply relates_reads|]. intros func_comment.
  apply relates_bind; [apply relates_reads|]. intros func_data.
  apply relates_send.
Qed.

End Relates.

(** X14: [commit_funcs] only reads the database: in every run, also one
    that raises, IDA is left exactly as it was, and what is put on the
    connection is connect, database choice, added functions and close,
    never a request for similars. *)
Theorem commit_funcs_reads_only (self : FCatalogClient) (w : world) :
  let w' := fst (commit_funcs self w) in
  ida w' = ida w /\
  exists tr, wire w' = wire w ++ tr /\ Forall is_commit_event tr.
Proof.
  intros w'. unfold w'.
  destruct (commit_funcs self w) as [w1 r] eqn:E. cbn [fst]. split.
  - apply (relates_commit_funcs (fun w w' => ida w' = ida w)) in E;
      [exact E|reflexivity|congruence|reflexivity].
  - apply (keeps_commit_funcs is_commit_event) in E.
    + apply E.
    + intros []; try contradiction. intros _. exact I.
    + intros; exact I.
    + intros; exact I.
    + exact I.
Qed.

(** ** What [find_similars] does to the names *)

Section Yields.

Lemma gen_yields_pure {A} (P : world -> A -> Prop) (Pre : world -> Prop)
    (g : gen A) (w w' : world) (r : result (option (A * gen A))) :
  gen_yields P Pre g -> next g w = (w', r) -> w' = w.
Proof. intros [Pre' nx H _ _]. apply H. Qed.

Lemma gen_yields_item {A} (P : world -> A -> Prop) (Pre : world -> Prop)
    (g : gen A) (w w' : world) (x : A) (g' : gen A) :
  gen_yields P Pre g -> Pre w -> next g w = (w', Ok (Some (x, g'))) -> P w x.
Proof. intros [Pre' nx _ H _]. apply H. Qed.

Lemma gen_yields_rest {A} (P : world -> A -> Prop) (Pre : world -> Prop)
    (g : gen A) (w w' : world) (x : A) (g' : gen A) :
  gen_yields P Pre g -> next g w = (w', Ok (Some (x, g'))) ->
  gen_yields P (fun _ => True) g'.
Proof. intros [Pre' nx _ _ H]. apply H. Qed.

Lemma gen_yields_weaken {A} (P : world -> A -> Prop) (Pre Pre' : world -> Prop)
    (g : gen A) :
  (forall w, Pre' w -> Pre w) -> gen_yields P Pre g -> gen_yields P Pre' g.
Proof.
  intros Himp Hg. revert Himp. destruct Hg as [Pre0 nx H1 H2 H3].
  intros Himp. constructor; [exact H1| |exact H3].
  intros w w' x g' Hw. apply H2, Himp, Hw.
Qed.

Lemma gen_yields_exhausted {A} (P : world -> A -> Prop) (Pre : world -> Prop) :
  gen_yields P Pre (@exhausted A).
Proof.
  constructor.
  - intros w w' r [= <- <-]. reflexivity.
  - intros w w' x g' _ H. discriminate.
  - intros w w' x g' H. discriminate.
Qed.

(** The loop over a generator relates the worlds when its body does, for
    the items the generator yields. *)
Lemma relates_for_each {A} (R : world -> world -> Prop)
    (P : world -> A -> Prop) (Pre : world -> Prop)
    (g : gen A) (body : A -> M unit) :
  (forall w, R w w) ->
  (forall w1 w2 w3, R w1 w2 -> R w2 w3 -> R w1 w3) ->
  gen_yields P Pre g ->
  (forall x w w' r, P w x -> body x w = (w', r) -> R w w') ->
  forall w w' r, Pre w -> for_each g body w = (w', r) -> R w w'.
Proof.
  intros R_refl R_trans Hg Hbody.
  induction Hg as [Pre nx Hpure Hitem _ IH].
  intros w w' r Hpre Hrun. cbn [for_each] in Hrun.
  destruct (nx w) as [w1 [[[x g']|]|e]] eqn:E.
  - assert (w1 = w) by (eapply Hpure, E). subst w1.
    assert (Hx : P w x) by (eapply Hitem; eassumption).
    destruct (body x w) as [w2 [[]|e]] eqn:Eb.
    + eapply R_trans; [eapply Hbody; eassumption|].
      eapply IH; [exact E|exact I|exact Hrun].
    + injection Hrun as <- <-. eapply Hbody; eassumption.
  - injection Hrun as <- <-. rewrite (Hpure _ _ _ E). apply R_refl.
  - injection Hrun as <- <-. rewrite (Hpure _ _ _ E). apply R_refl.
Qed.

Lemma gen_yields_find_candidates (funcs : list Z) :
  gen_yields unnamed (fun _ => True) (find_candidates_from funcs).
Proof.
  induction funcs as [|a funcs IH]; cbn [find_candidates_from].
  - constructor.
    + intros w w' r [= <- <-]. reflexivity.
    + intros w w' x g' _ H. discriminate.
    + intros w w' x g' H. discriminate.
  - constructor.
    + intros w w' r Hrun.
      destruct (is_func_find_candidate (ida w) a) as [[|]|e].
      * injection Hrun as <- <-. reflexivity.
      * eapply gen_yields_pure; eassumption.
      * injection Hrun as <- <-. reflexivity.
    + intros w w' x g' _ Hrun.
      destruct (is_func_find_candidate (ida w) a) as [[|]|e] eqn:Hc.
      * injection Hrun as <- <- <-. apply find_candidate_not_named.
        rewrite Hc. reflexivity.
      * eapply gen_yields_item; [exact IH|exact I|exact Hrun].
      * discriminate.
    + intros w w' x g' Hrun.
      destruct (is_func_find_candidate (ida w) a) as [[|]|e].
      * injection Hrun as <- <- <-. exact IH.
      * eapply gen_yields_rest; eassumption.
      * discriminate.
Qed.

Lemma gen_yields_iter_func_find_candidates :
  gen_yields unnamed (fun _ => True) iter_func_find_candidates.
Proof.
  constructor.
  - intros w w' r Hrun.
    eapply gen_yields_pure; [apply gen_yields_find_candidates|exact Hrun].
  - intros w w' x g' _ Hrun.
    eapply gen_yields_item; [apply gen_yields_find_candidates|exact I|exact Hrun].
  - intros w w' x g' Hrun.
    eapply gen_yields_rest; [apply gen_yields_find_candidates|exact Hrun].
Qed.

(** The blocks of [blockify] are made of items of the producer, which
    still satisfy [P] when the block is yielded. *)
Lemma gen_yields_blockify_from {A} (P : world -> A -> Prop) (Pre : world -> Prop)
    (g : gen A) (n : nat) :
  gen_yields P Pre g -> (forall w, Pre w) ->
  forall cur,
    gen_yields (fun w l => Forall (P w) l) (fun w => Forall (P w) cur)
               (blockify_from g n cur).
Proof.
  intros Hg. induction Hg as [Pre nx Hpure Hitem Hrest IH].
  intros Hpre cur. cbn [blockify_from]. constructor.
  - intros w w' r Hrun.
    destruct (nx w) as [w1 [[[x g']|]|e]] eqn:E.
    + assert (w1 = w) by (eapply Hpure, E). subst w1.
      destruct (length (cur ++ [x]) =? n)%nat.
      * injection Hrun as <- <-. reflexivity.
      * eapply gen_yields_pure; [|exact Hrun]. eapply IH; [exact E|auto].
    + rewrite <- (Hpure _ _ _ E).
      destruct cur; injection Hrun as <- <-; reflexivity.
    + injection Hrun as <- <-. eapply Hpure, E.
  - intros w w' l g2 Hcur Hrun.
    destruct (nx w) as [w1 [[[x g']|]|e]] eqn:E.
    + assert (w1 = w) by (eapply Hpure, E). subst w1.
      assert (Hcur' : Forall (P w) (cur ++ [x])).
      { apply Forall_app. split; [exact Hcur|].
        constructor; [|constructor]. eapply Hitem; [apply Hpre|exact E]. }
      destruct (length (cur ++ [x]) =? n)%nat.
      * injection Hrun as <- <- <-. exact Hcur'.
      * apply (gen_yields_item (fun w l => Forall (P w) l)
                 (fun w0 => Forall (P w0) (cur ++ [x]))
                 (blockify_from g' n (cur ++ [x])) w w' l g2);
          [|exact Hcur'|exact Hrun].
        eapply IH; [exact E|auto].
    + destruct cur; [discriminate|]. injection Hrun as <- <- <-. exact Hcur.
    + discriminate.
  - intros w w' l g2 Hrun.
    destruct (nx w) as [w1 [[[x g']|]|e]] eqn:E.
    + destruct (length (cur ++ [x]) =? n)%nat.
      * injection Hrun as <- <- <-.
        eapply gen_yields_weaken; [|eapply IH; [exact E|auto]].
        intros; constructor.
      * eapply gen_yields_rest; [|exact Hrun]. eapply IH; [exact E|auto].
    + destruct cur; [discriminate|]. injection Hrun as <- <- <-.
      apply gen_yields_exhausted.
    + discriminate.
Qed.

End Yields.

Section FindNames.

Lemma renames_unnamed_refl (w : world) : renames_unnamed w w.
Proof. split; [apply same_but_names_refl|]. intros a. left. reflexivity. Qed.

Lemma renames_unnamed_trans (w1 w2 w3 : world) :
  renames_unnamed w1 w2 -> renames_unnamed w2 w3 -> renames_unnamed w1 w3.
Proof.
  intros [Hs12 Hn12] [Hs23 Hn23].
  split; [eapply same_but_names_trans; eassumption|].
  intros a. destruct (Hn23 a) as [H23|[Hu2 Hc3]].
  - destruct (Hn12 a) as [H12|[Hu1 Hc2]].
    + left. congruence.
    + right. split; [exact Hu1|].
      rewrite <- Hc2. apply is_func_fcatalog_by_name, H23.
  - right. split; [|exact Hc3].
    destruct (Hn12 a) as [H12|[Hu1 _]]; [|exact Hu1].
    rewrite <- Hu2. symmetry. apply is_func_named_by_name, H12.
Qed.

Lemma renames_unnamed_wire (w : world) (tr : list event) :
  renames_unnamed w (with_wire w tr).
Proof. exact (renames_unnamed_refl w). Qed.

(** A function that is not named stays so. *)
Lemma renames_unnamed_stable (w w' : world) (a : Z) :
  renames_unnamed w w' -> unnamed w a -> unnamed w' a.
Proof.
  intros [_ Hn] Hu. unfold unnamed in *.
  destruct (Hn a) as [H|[_ Hc]].
  - rewrite <- Hu. apply is_func_named_by_name, H.
  - apply fcatalog_not_named, Hc.
Qed.

Lemma apply_similars_renames_unnamed (similarity_cut : Z)
    (fs : Z * list similar) (w w' : world) (r : result unit) :
  unnamed w (fst fs) ->
  apply_similars similarity_cut fs w = (w', r) -> renames_unnamed w w'.
Proof.
  destruct fs as [a [|fsim rest]]; unfold apply_similars; cbn [fst apply_similars_with]; intros Hu Hrun.
  - injection Hrun as <- <-. apply renames_unnamed_refl.
  - destruct (sim_grade fsim <? similarity_cut).
    + injection Hrun as <- <-. apply renames_unnamed_refl.
    + injection Hrun as <- <-. split; [apply same_but_names_MakeName|].
      intros b. cbn [ida with_ida]. unfold set_func_comment.
      unfold is_func_fcatalog. rewrite GetFunctionName_MakeName.
      destruct (Z.eq_dec a b) as [<-|Hne]; [right|left; reflexivity].
      split; [exact Hu|apply make_fcatalog_name_prefix].
Qed.

Lemma for_apply_similars_renames_unnamed (similarity_cut : Z)
    (bsimilars : list (Z * list similar)) :
  forall w w' r,
    Forall (fun fs => unnamed w (fst fs)) bsimilars ->
    for_ bsimilars (apply_similars similarity_cut) w = (w', r) ->
    renames_unnamed w w'.
Proof.
  induction bsimilars as [|fs bs IH]; intros w w' r Hall Hrun.
  - injection Hrun as <- <-. apply renames_unnamed_refl.
  - inversion_clear Hall as [|? ? Hfs Hbs].
    cbn [for_] in Hrun. unfold mbind, M_bind in Hrun.
    destruct (apply_similars similarity_cut fs w) as [w1 [[]|e]] eqn:E.
    + pose proof (apply_similars_renames_unnamed _ _ _ _ _ Hfs E) as H1.
      eapply renames_unnamed_trans; [exact H1|].
      eapply IH; [|exact Hrun].
      eapply Forall_impl; [exact Hbs|].
      intros fs' Hfs'. eapply renames_unnamed_stable; eassumption.
    + injection Hrun as <- <-.
      eapply apply_similars_renames_unnamed; eassumption.
Qed.

Lemma Forall_zip_fst {A B} (P : A -> Prop) (l : list A) (l' : list B) :
  Forall P l -> Forall (fun p => P (fst p)) (zip l l').
Proof.
  intros H. revert l'. induction H as [|x l Hx _ IH]; intros [|y l'];
    cbn; constructor; auto.
Qed.

(** One block of [find_similars]: the exchange, then the matches. *)
Lemma block_renames_unnamed (fdb : DBEndpoint_t) (similarity_cut : Z)
    (l_func_addr : list Z) (w w' : world) (r : result unit) :
  Forall (unnamed w) l_func_addr ->
  (bsimilars ← _batch_similars fdb l_func_addr;
   for_ bsimilars (apply_similars similarity_cut)) w = (w', r) ->
  renames_unnamed w w'.
Proof.
  intros Hall Hrun. unfold mbind at 1, M_bind at 1 in Hrun.
  destruct (_batch_similars fdb l_func_addr w) as [w1 r1] eqn:E.
  assert (Hida : ida w1 = ida w /\
                 forall res, r1 = Ok res -> exists rs, res = zip l_func_addr rs).
  { unfold _batch_similars, mbind, M_bind in E.
    destruct (send_requests fdb l_func_addr w) as [w0 r0] eqn:Es.
    apply send_requests_any in Es as (ds & -> & _ & _).
    destruct r0 as [[]|e].
    - apply read_responses_any in E as (rs & -> & _ & _ & Hres).
      split; [reflexivity|]. intros res ->.
      exists rs. apply (Hres res eq_refl).
    - injection E as <- <-. split; [reflexivity|discriminate]. }
  destruct Hida as [Hida Hres].
  assert (H1 : renames_unnamed w w1).
  { split; [rewrite Hida; apply same_but_names_refl|].
    intros a. left. rewrite Hida. reflexivity. }
  destruct r1 as [res|e].
  - destruct (Hres res eq_refl) as [rs ->].
    eapply renames_unnamed_trans; [exact H1|].
    eapply for_apply_similars_renames_unnamed; [|exact Hrun].
    apply Forall_zip_fst. eapply Forall_impl; [exact Hall|].
    intros a Ha. eapply renames_unnamed_stable; eassumption.
  - injection Hrun as <- <-. exact H1.
Qed.

Lemma find_similars_renames_unnamed (self : FCatalogClient)
    (similarity_cut : Z) (batch_size : nat) :
  relates renames_unnamed (find_similars self similarity_cut batch_size).
Proof.
  pose proof renames_unnamed_refl as Hrefl.
  pose proof renames_unnamed_trans as Htrans.
  pose proof renames_unnamed_wire as Hwire.
  unfold find_similars.
  apply (relates_bind _ Htrans);
    [apply (relates_TCPFrameClient _ Hrefl Htrans Hwire)|]. intros fe.
  apply (relates_bind _ Htrans);
    [apply (relates_DBEndpoint _ Hrefl Htrans Hwire)|]. intros fdb.
  apply (relates_bind _ Htrans);
    [|intros _; apply (relates_emit _ Hwire)].
  intros w w' r Hrun.
  refine (relates_for_each renames_unnamed
            (fun w l => Forall (unnamed w) l)
            (fun w => Forall (unnamed w) []) _ _
            Hrefl Htrans _ _ w w' r _ Hrun); [| |constructor].
  - apply gen_yields_blockify_from with (Pre := fun _ => True);
      [apply gen_yields_iter_func_find_candidates|auto].
  - intros l w0 w0' r0 Hl Hrun0.
    eapply block_renames_unnamed; eassumption.
Qed.

End FindNames.

(** X15: in every run of [find_similars], also one that raises, IDA is
    changed in names only, and a name either stays or goes from a function
    that was not named to a catalog name; a function that [is_func_named]
    takes for named keeps its name. *)
Theorem find_similars_renames_only_unnamed (self : FCatalogClient)
    (similarity_cut : Z) (batch_size : nat) (w : world) :
  let db' := ida (fst (find_similars self similarity_cut batch_size w)) in
  same_but_names (ida w) db' /\
  (forall a,
     GetFunctionName db' a = GetFunctionName (ida w) a \/
     (is_func_named (ida w) a = false /\
      Py.startswith (GetFunctionName db' a) FCATALOG_FUNC_NAME_PREFIX = true)) /\
  (forall a,
     is_func_named (ida w) a = true ->
     GetFunctionName db' a = GetFunctionName (ida w) a).
Proof.
  intros db'. unfold db'.
  destruct (find_similars self similarity_cut batch_size w) as [w' r] eqn:E.
  apply find_similars_renames_unnamed in E as [Hsame Hnames]. cbn [fst].
  split; [exact Hsame|]. split; [exact Hnames|].
  intros a Ha. destruct (Hnames a) as [H|[Hu _]]; [exact H|congruence].
Qed.

(** X16: [find_similars] changes no answer of [is_func_named],
    [is_func_commit_candidate] or [is_func_find_candidate]: a second run
    meets the same candidates, and what [commit_funcs] would commit is the
    same before and after. *)
Theorem find_similars_keeps_candidates (self : FCatalogClient)
    (similarity_cut : Z) (batch_size : nat) (w : world) (a : Z) :
  let db' := ida (fst (find_similars self similarity_cut batch_size w)) in
  is_func_named db' a = is_func_named (ida w) a /\
  is_func_commit_candidate db' a = is_func_commit_candidate (ida w) a /\
  is_func_find_candidate db' a = is_func_find_candidate (ida w) a.
Proof.
  intros db'. unfold db'.
  destruct (find_similars self similarity_cut batch_size w) as [w' r] eqn:E.
  apply find_similars_renames_unnamed in E as [Hsame Hnames]. cbn [fst].
  destruct Hsame as (_ & He & Ht & _ & _).
  assert (Hn : is_func_named (ida w') a = is_func_named (ida w) a).
  { destruct (Hnames a) as [H|[Hu Hc]].
    - apply is_func_named_by_name, H.
    - rewrite Hu. apply fcatalog_not_named, Hc. }
  split; [exact Hn|]. split.
  - unfold is_func_commit_candidate, is_func_long_enough, get_func_length,
      is_func_chunked. rewrite Ht, He, Hn. reflexivity.
  - apply is_func_find_candidate_by_name; assumption.
Qed.

(** ** The connection during [find_similars] and [commit_funcs] *)

Section FindEvents.

Lemma keeps_find_events_loop (fdb : DBEndpoint_t) (similarity_cut : Z)
    (batch_size : nat) :
  keeps is_find_event
    (for_each (blockify iter_func_find_candidates batch_size)
       (fun l_func_addr =>
          bsimilars ← _batch_similars fdb l_func_addr;
          for_ bsimilars (apply_similars similarity_cut))).
Proof.
  apply keeps_for_each.
  - apply gen_keeps_blockify_from, gen_keeps_iter_func_find_candidates.
  - intros l. apply keeps_bind; [|intros bs; apply keeps_for, keeps_apply_similars].
    unfold _batch_similars. apply keeps_bind.
    + apply keeps_for. intros a. apply keeps_bind; [apply keeps_reads|].
      intros d. apply keeps_send. reflexivity.
    + intros _. apply keeps_collect. intros a.
      apply keeps_bind; [|intros r; apply keeps_ret].
      apply keeps_response. intros r. exact I.
Qed.

End FindEvents.

(** X17: in every run of [find_similars], also one that raises, what is
    put on the connection is connect, database choice, requests that each
    ask for exactly one match, responses and close; no function is ever
    added to the catalog. *)
Theorem find_similars_events (self : FCatalogClient) (similarity_cut : Z)
    (batch_size : nat) (w : world) :
  exists tr,
    wire (fst (find_similars self similarity_cut batch_size w)) = wire w ++ tr /\
    Forall is_find_event tr.
Proof.
  destruct (find_similars self similarity_cut batch_size w) as [w' r] eqn:E.
  cbn [fst]. revert E. unfold find_similars. intros E.
  assert (H : keeps is_find_event
                (frame_endpoint ← TCPFrameClient (_remote self);
                 fdb ← DBEndpoint frame_endpoint (_db_name self);
                 for_each (blockify iter_func_find_candidates batch_size)
                   (fun l_func_addr =>
                      bsimilars ← _batch_similars fdb l_func_addr;
                      for_ bsimilars (apply_similars similarity_cut)) ;;
                 close fdb)).
  { apply keeps_bind; [apply keeps_TCPFrameClient; exact I|]. intros fe.
    apply keeps_bind; [apply keeps_DBEndpoint; exact I|]. intros fdb.
    apply keeps_bind; [apply keeps_find_events_loop|].
    intros _. apply keeps_emit. exact I. }
  apply H in E. apply E.
Qed.

Section CommitRun.

Lemma commit_candidate_length (db : idb) (a : Z) :
  is_func_commit_candidate db a = Ok true ->
  get_func_length db a = Ok (func_end db a - a).
Proof.
  unfold is_func_commit_candidate, is_func_long_enough, get_func_length.
  destruct (is_func_chunked db a); [discriminate|].
  destruct (negb (is_func_named db a)); [discriminate|].
  destruct (func_end db a <? a); [discriminate|reflexivity].
Qed.

Lemma with_wire_ida (w : world) (tr : list event) : ida (with_wire w tr) = ida w.
Proof. reflexivity. Qed.

Lemma for_commit_func_run (fdb : DBEndpoint_t) (db : idb) (funcs : list Z) :
  forall w,
    ida w = db ->
    Forall (fun a => is_ok (is_func_commit_candidate db a) = true) funcs ->
    Forall (fun a => is_Some (bytes_at db a (func_end db a - a)))
           (List.filter (fun a => returns_true (is_func_commit_candidate db a))
                        funcs) ->
    (forall i,
       (i < length (List.filter
                      (fun a => returns_true (is_func_commit_candidate db a))
                      funcs))%nat ->
       fails (net w) (length (wire w) + i) = None) ->
    for_ funcs (commit_func fdb) w =
      (with_wire w
         (wire w ++
          map (added db)
              (List.filter
                 (fun a => returns_true (is_func_commit_candidate db a)) funcs)),
       Ok tt).
Proof.
  induction funcs as [|a funcs IH]; intros w Hdb Hok Hbytes Hsend.
  - cbn. rewrite app_nil_r, with_wire_id. reflexivity.
  - inversion_clear Hok as [|? ? Ha Hok'].
    cbn [for_ List.filter] in *.
    destruct (is_func_commit_candidate db a) as [[|]|e] eqn:Hc;
      [| |discriminate]; cbn [returns_true] in *.
    + inversion_clear Hbytes as [|? ? [d Hd] Hbytes'].
      assert (Hrun : commit_func fdb a w =
                     (with_wire w (wire w ++ [added db a]), Ok tt)).
      { subst db. unfold commit_func, mbind, M_bind, reads.
        rewrite Hc. cbn [negb].
        unfold get_func_data. rewrite (commit_candidate_length _ _ Hc), Hd.
        unfold add_function, send.
        rewrite <- (Nat.add_0_r (length (wire w))), Hsend by (simpl; lia).
        unfold added. rewrite Hd. reflexivity. }
      erewrite bind_ok by exact Hrun.
      rewrite IH; [|exact Hdb|exact Hok'|exact Hbytes'|].
      * cbn [wire with_wire map]. rewrite <- app_assoc. reflexivity.
      * intros i Hi. cbn [wire with_wire net]. rewrite length_app. simpl.
        rewrite <- (Hsend (S i)) by (simpl; lia). f_equal. lia.
    + assert (Hrun : commit_func fdb a w = (w, Ok tt)).
      { subst db. unfold commit_func, mbind, M_bind, reads.
        rewrite Hc. reflexivity. }
      erewrite bind_ok by exact Hrun.
      apply IH; assumption.
Qed.

End CommitRun.

(** X18: when no selection test raises, the bytes of every commit
    candidate can be read and the connection holds, [commit_funcs] puts on
    the connection connect, database choice, one added function per commit
    candidate in the order of the database, each with its name, an empty
    comment and its bytes, and close; it ends without an error. *)
Theorem commit_funcs_adds_candidates (self : FCatalogClient) (w : world) :
  Forall (fun a => is_ok (is_func_commit_candidate (ida w) a) = true)
         (Functions (ida w)) ->
  Forall (fun a => is_Some (bytes_at (ida w) a (func_end (ida w) a - a)))
         (commit_candidates (ida w)) ->
  (forall i, (i < length (commit_candidates (ida w)) + 2)%nat ->
             fails (net w) (length (wire w) + i) = None) ->
  commit_funcs self w =
    (with_wire w
       (wire w ++
        [EvConnect (_remote self); EvChooseDb (_db_name self)] ++
        map (added (ida w)) (commit_candidates (ida w)) ++ [EvClose]),
     Ok tt).
Proof.
  intros Hok Hbytes Hsend. unfold commit_funcs.
  erewrite bind_ok; cycle 1.
  { unfold TCPFrameClient. erewrite bind_ok; [reflexivity|]. apply send_ok.
    rewrite <- (Hsend 0%nat) by lia. f_equal. lia. }
  erewrite bind_ok; cycle 1.
  { unfold DBEndpoint. erewrite bind_ok; [reflexivity|]. apply send_ok.
    cbn [wire with_wire net]. rewrite length_app. simpl.
    rewrite <- (Hsend 1%nat) by lia. f_equal. }
  erewrite bind_ok; cycle 1.
  { unfold for_Functions. cbn [ida with_wire].
    apply (for_commit_func_run _ (ida w)); [reflexivity|exact Hok|exact Hbytes|].
    intros i Hi. cbn [wire with_wire net]. rewrite !length_app. simpl.
    rewrite <- (Hsend (S (S i))) by (unfold commit_candidates; lia).
    f_equal. lia. }
  unfold close, emit. cbn [wire with_wire]. unfold commit_candidates.
  rewrite <- !app_assoc. reflexivity.
Qed.

Lemma commit_funcs_adds_candidates_witness :
  commit_funcs Examples.client Examples.w_ok =
    (with_wire Examples.w_ok
       [EvConnect "127.0.0.1:1337"; EvChooseDb "test_db";
        EvAddFunction "httpParse" "" (Examples.nops 0x80); EvClose],
     Ok tt).
Proof.
  rewrite (commit_funcs_adds_candidates Examples.client Examples.w_ok).
  - reflexivity.
  - repeat constructor.
  - vm_compute. repeat constructor; eexists; reflexivity.
  - intros i Hi. reflexivity.
Defined.

Section NoCandidates.

Lemma next_no_candidates (funcs : list Z) (w : world) :
  Forall (fun a => is_func_find_candidate (ida w) a = Ok false) funcs ->
  next (find_candidates_from funcs) w = (w, Ok None).
Proof.
  induction 1 as [|a funcs Ha _ IH]; [reflexivity|].
  cbn [find_candidates_from next]. rewrite Ha. exact IH.
Qed.

Lemma find_loop_no_candidates (batch_size : nat) (body : list Z -> M unit)
    (w : world) :
  Forall (fun a => is_func_find_candidate (ida w) a = Ok false)
         (Functions (ida w)) ->
  for_each (blockify iter_func_find_candidates batch_size) body w = (w, Ok tt).
Proof.
  intros H. unfold blockify, iter_func_find_candidates.
  cbn [blockify_from for_each]. rewrite (next_no_candidates _ _ H).
  reflexivity.
Qed.

End NoCandidates.

(** X19: on a database without a find candidate, with a connection that
    holds, [find_similars] connects, chooses the database and closes: it
    sends no request, reads no response, and leaves IDA as it was. *)
Theorem find_similars_no_candidates (self : FCatalogClient)
    (similarity_cut : Z) (batch_size : nat) (w : world) :
  Forall (fun a => is_func_find_candidate (ida w) a = Ok false)
         (Functions (ida w)) ->
  fails (net w) (length (wire w)) = None ->
  fails (net w) (S (length (wire w))) = None ->
  find_similars self similarity_cut batch_size w =
    (with_wire w
       (wire w ++ [EvConnect (_remote self); EvChooseDb (_db_name self); EvClose]),
     Ok tt).
Proof.
  intros Hnone Hs0 Hs1. unfold find_similars.
  erewrite bind_ok; cycle 1.
  { unfold TCPFrameClient. erewrite bind_ok; [reflexivity|].
    apply send_ok, Hs0. }
  erewrite bind_ok; cycle 1.
  { unfold DBEndpoint. erewrite bind_ok; [reflexivity|]. apply send_ok.
    cbn [wire with_wire net]. rewrite length_app. simpl.
    rewrite Nat.add_1_r. exact Hs1. }
  erewrite bind_ok by (apply find_loop_no_candidates; exact Hnone).
  unfold close, emit. cbn [wire with_wire]. rewrite <- !app_assoc. reflexivity.
Qed.

Lemma find_similars_no_candidates_witness :
  find_similars Examples.client 8 20
    {| ida := Examples.db_none; net := Examples.remote_ok; wire := [] |} =
    ({| ida := Examples.db_none; net := Examples.remote_ok;
        wire := [EvConnect "127.0.0.1:1337"; EvChooseDb "test_db"; EvClose] |},
     Ok tt).
Proof.
  apply (find_similars_no_candidates Examples.client 8 20
           {| ida := Examples.db_none; net := Examples.remote_ok; wire := [] |}).
  - repeat constructor.
  - reflexivity.
  - reflexivity.
Defined.

(** ** Chunks *)

(** X20: [is_func_chunked] answers [True] exactly when the iterator over
    the function's chunks walks through more than one; a function with no
    chunk at all, or with one, is not chunked. *)
Theorem is_func_chunked_counts (db : idb) (func_addr : Z) :
  is_func_chunked db func_addr =
    match tails db func_addr with
    | [] | [_] => false
    | _ :: _ :: _ => true
    end.
Proof.
  unfold is_func_chunked. rewrite count_chunks.
  destruct (tails db func_addr) as [|c1 [|c2 l]]; [reflexivity|reflexivity|].
  apply Z.ltb_lt. cbn [length]. lia.
Qed.
